(** * HEATED_PLATE: the Jacobi relaxation of [CUDA Seneca/a1.cpp]

    A shallow embedding of the relaxation core of the program (boundary
    stamping, mean fill, the sweep, the convergence loop and the part of
    [main] that drives them) and the properties its description states.

    Modelling decisions.
    - [double] values are exact rationals ([Q]): rounding, overflow and NaN
      are not modelled.  Every numeric statement below is a statement about
      the exact-arithmetic reading of the program.  Module [B64] holds the
      same functions over binary64 numbers; it is used to run the program
      where rounding matters.
    - The global arrays [w] and [u] are total maps from two indices to a
      value; the program only ever reads and writes cells [i < M], [j < N],
      and the lemmas speak about those cells only.
    - [M] and [N] are the two macros of the source ([# define M 1000]); the
      functions below take them as arguments so that small plates can be run.
      [M_ref] and [N_ref] are the values of the source.  [1 <= M] and
      [1 <= N] is assumed throughout (the source indexes row [M - 1]).
    - The loop counters [i] and [j] are globals of the source that every
      loop initialises before use; they are not part of the state here.
    - Console and file output are left out; the counters that schedule the
      progress lines ([iterations], [iterations_print]) are kept.
    - [main] starts where the two inputs have been obtained; [main_from]
      puts the two ways of obtaining them in front of it.
    - [iterations] and [iterations_print] are unbounded integers: they are
      the [int] counters of the source as long as these do not overflow,
      which is for the first 2^30 - 1 sweeps. *)

From Stdlib Require Import Ascii String QArith Qabs Qminmax Qround Lqa Lia ZArith Bool List.
From Stdlib Require Import Permutation Qpower.
From Stdlib Require Floats Uint63.
Import ListNotations.
Open Scope Q_scope.

(** ** Arrays *)

Definition grid : Type := nat -> nat -> Q.

(** [g[i][j] = v] *)
Definition upd (g : grid) (i j : nat) (v : Q) : grid :=
  fun a b => if (Nat.eqb a i && Nat.eqb b j)%bool then v else g a b.

(** ** Counted loops: [for (k = lo; k < hi; k++) body] *)

Fixpoint for_count {S : Type} (cnt k : nat) (body : nat -> S -> S) (s : S) : S :=
  match cnt with
  | O => s
  | Datatypes.S c => for_count c (Datatypes.S k) body (body k s)
  end.

Definition for_loop {S : Type} (lo hi : nat) (body : nat -> S -> S) (s : S) : S :=
  for_count (hi - lo) lo body s.

(** ** The globals of the program *)

Record state : Type := mkState {
  w : grid;                 (* double w[M][N], the latest solution *)
  u : grid;                 (* double u[M][N], the previous solution *)
  diff : Q;
  epsilon : Q;
  mean : Q;
  iterations : Z;
  iterations_print : Z
}.

Definition set_w (st : state) (g : grid) : state :=
  mkState g (u st) (diff st) (epsilon st) (mean st) (iterations st) (iterations_print st).
Definition set_u (st : state) (g : grid) : state :=
  mkState (w st) g (diff st) (epsilon st) (mean st) (iterations st) (iterations_print st).
Definition set_diff (st : state) (d : Q) : state :=
  mkState (w st) (u st) d (epsilon st) (mean st) (iterations st) (iterations_print st).
Definition set_epsilon (st : state) (e : Q) : state :=
  mkState (w st) (u st) (diff st) e (mean st) (iterations st) (iterations_print st).
Definition set_mean (st : state) (m : Q) : state :=
  mkState (w st) (u st) (diff st) (epsilon st) m (iterations st) (iterations_print st).
Definition set_iterations (st : state) (k : Z) : state :=
  mkState (w st) (u st) (diff st) (epsilon st) (mean st) k (iterations_print st).
Definition set_iterations_print (st : state) (k : Z) : state :=
  mkState (w st) (u st) (diff st) (epsilon st) (mean st) (iterations st) k.

(** Globals of static storage start at zero. *)
Definition globals : state :=
  mkState (fun _ _ => 0) (fun _ _ => 0) 0 0 0 0%Z 0%Z.

(** [a < b] on doubles, as a test. *)
Definition Qlt_bool (a b : Q) : bool := negb (Qle_bool b a).

Definition M_ref : nat := 1000.
Definition N_ref : nat := 1000.

Section Plate.

Variables M N : nat.

(** *** [setBoundaryValue] *)

Definition setBoundaryValue (st : state) : state :=
  let st := for_loop 1 (M - 1) (fun i st => set_w st (upd (w st) i 0 100)) st in
  let st := for_loop 1 (M - 1) (fun i st => set_w st (upd (w st) i (N - 1) 100)) st in
  let st := for_loop 0 N (fun j st => set_w st (upd (w st) (M - 1) j 100)) st in
  for_loop 0 N (fun j st => set_w st (upd (w st) 0 j 0)) st.

(** *** [setAverageBoundary] *)

Definition setAverageBoundary (st : state) : state :=
  let st := set_mean st 0 in
  let st := for_loop 1 (M - 1) (fun i st => set_mean st (mean st + w st i 0%nat)) st in
  let st := for_loop 1 (M - 1) (fun i st => set_mean st (mean st + w st i (N - 1)%nat)) st in
  let st := for_loop 0 N (fun j st => set_mean st (mean st + w st (M - 1)%nat j)) st in
  let st := for_loop 0 N (fun j st => set_mean st (mean st + w st 0%nat j)) st in
  let st :=
    set_mean st (mean st / inject_Z (2 * Z.of_nat M + 2 * Z.of_nat N - 4)) in
  for_loop 1 (M - 1) (fun i st =>
    for_loop 1 (N - 1) (fun j st => set_w st (upd (w st) i j (mean st))) st) st.

(** *** [getHeat]: the body of the [while] loop *)

(** Save the old solution in U. *)
Definition save_old (st : state) : state :=
  for_loop 0 M (fun i st =>
    for_loop 0 N (fun j st => set_u st (upd (u st) i j (w st i j))) st) st.

(** The body of the inner loop at [(i, j)]. *)
Definition relax_cell (i j : nat) (st : state) : state :=
  let st :=
    set_w st (upd (w st) i j
      ((u st (i - 1)%nat j + u st (i + 1)%nat j
        + u st i (j - 1)%nat + u st i (j + 1)%nat) / 4)) in
  if Qlt_bool (diff st) (Qabs (w st i j - u st i j))
  then set_diff st (Qabs (w st i j - u st i j))
  else st.

Definition relax (st : state) : state :=
  for_loop 1 (M - 1) (fun i st => for_loop 1 (N - 1) (fun j st => relax_cell i j st) st) st.

Definition count_iteration (st : state) : state :=
  let st := set_iterations st (iterations st + 1) in
  if (iterations st =? iterations_print st)%Z
  then set_iterations_print st (2 * iterations_print st)
  else st.

Definition sweep (st : state) : state :=
  let st := save_old st in
  let st := set_diff st 0 in
  let st := relax st in
  count_iteration st.

(** *** [getHeat]

    [fuel] bounds the number of times the loop condition is tested;
    [None] means that the loop is still running when the fuel is spent. *)
Fixpoint getHeat_loop (fuel : nat) (st : state) : option state :=
  match fuel with
  | O => None
  | S f =>
      if Qle_bool (epsilon st) (diff st)
      then getHeat_loop f (sweep st)
      else Some st
  end.

Definition getHeat (fuel : nat) (st : state) : option state :=
  getHeat_loop fuel (set_iterations_print (set_iterations st 0) 1).

(** *** [main]

    [arg_eps] is [Some e] when [e] is the value that [epsilon] holds at
    line 291, and [None] when the [sscanf] of line 277 converted nothing;
    [arg_file] is the same for OUTPUT_FILENAME and line 303.  The result
    is the exit status and the globals at exit. *)
Definition main_setup (e : Q) : state :=
  let st := set_epsilon globals e in
  set_diff st (epsilon st).

Definition initialize (st : state) : state :=
  setAverageBoundary (setBoundaryValue st).

Definition main (fuel : nat) (arg_eps : option Q) (arg_file : option string)
  : option (Z * state) :=
  match arg_eps with
  | None => Some (1%Z, globals)
  | Some e =>
      let st := main_setup e in
      match arg_file with
      | None => Some (1%Z, st)
      | Some _ =>
          match getHeat fuel (initialize st) with
          | None => None
          | Some st' => Some (0%Z, st')
          end
      end
  end.

End Plate.

(** ** Cells visited by the loops, in the order the loops visit them *)

Definition cell : Type := (nat * nat)%type.

(** [for (i = lo; i < hi; i++)] at a fixed column [c]. *)
Definition col_cells (lo hi c : nat) : list cell :=
  map (fun i => (i, c)) (seq lo (hi - lo)).

(** [for (j = lo; j < hi; j++)] at a fixed row [r]. *)
Definition row_cells (r lo hi : nat) : list cell :=
  map (fun j => (r, j)) (seq lo (hi - lo)).

(** The two nested loops, row-major. *)
Definition cells (r0 r1 c0 c1 : nat) : list cell :=
  flat_map (fun i => row_cells i c0 c1) (seq r0 (r1 - r0)).

Definition interior_cells (M N : nat) : list cell := cells 1 (M - 1) 1 (N - 1).
Definition all_cells (M N : nat) : list cell := cells 0 M 0 N.

(** The boundary cells in the order [setAverageBoundary] adds them up. *)
Definition boundary_cells (M N : nat) : list cell :=
  col_cells 1 (M - 1) 0 ++ col_cells 1 (M - 1) (N - 1)
  ++ row_cells (M - 1) 0 N ++ row_cells 0 0 N.

Definition interior (M N i j : nat) : Prop :=
  (1 <= i <= M - 2 /\ 1 <= j <= N - 2)%nat.

Definition on_boundary (M N i j : nat) : Prop :=
  (i < M /\ j < N /\ (i = 0 \/ i = M - 1 \/ j = 0 \/ j = N - 1))%nat.

Definition at_cell (g : grid) (c : cell) : Q := g (fst c) (snd c).

(** Writing [val c] into every cell [c] of a list, first to last. *)
Definition write_all (val : cell -> Q) (l : list cell) (g : grid) : grid :=
  fold_left (fun g c => upd g (fst c) (snd c) (val c)) l g.

(** The average of the four neighbours of a cell in [g]. *)
Definition neighbour_avg (g : grid) (c : cell) : Q :=
  (g (fst c - 1)%nat (snd c) + g (fst c + 1)%nat (snd c)
   + g (fst c) (snd c - 1)%nat + g (fst c) (snd c + 1)%nat) / 4.

(** The update of [diff] in the inner loop: [if (diff < x) diff = x]. *)
Definition bump (d x : Q) : Q := if Qlt_bool d x then x else d.

(** The running maximum of [f] over a list of cells, starting from [d]. *)
Definition running_max (f : cell -> Q) (l : list cell) (d : Q) : Q :=
  fold_left (fun d c => bump d (f c)) l d.

(** The largest change of a sweep that starts from grid [g], taken over a
    list of cells, starting from [d]. *)
Definition max_change (g : grid) (l : list cell) (d : Q) : Q :=
  running_max (fun c => Qabs (neighbour_avg g c - at_cell g c)) l d.

(** One Jacobi step on a grid, as the description words it: every interior
    cell becomes the average of its four neighbours in the old grid, every
    other cell stays. *)
Definition jacobi (M N : nat) (g : grid) : grid :=
  fun i j =>
    if ((1 <=? i) && (i <=? M - 2) && (1 <=? j) && (j <=? N - 2))%nat%bool
    then neighbour_avg g (i, j)
    else g i j.

(** The sum of the boundary cells divided by their number, as the
    description words it. *)
Definition boundary_mean (M N : nat) (g : grid) : Q :=
  fold_right Qplus 0 (map (at_cell g) (boundary_cells M N))
  / inject_Z (Z.of_nat (2 * M + 2 * N - 4)).

(** The state in which [main] calls [getHeat], after [getHeat] has reset
    its two counters: the state at the first test of the loop condition. *)
Definition loop_entry (M N : nat) (e : Q) : state :=
  set_iterations_print (set_iterations (initialize M N (main_setup e)) 0) 1.

(** Every cell of the plate lies between [lo] and [hi]. *)
Definition in_range (M N : nat) (lo hi : Q) (g : grid) : Prop :=
  forall a b, (a < M)%nat -> (b < N)%nat -> lo <= g a b <= hi.

(** ** Notions used in the termination argument *)

(** The grid after [k] sweeps from state [st], and the change that the
    next sweep makes to it. *)
Definition grid_after (M N : nat) (st : state) (k : nat) : grid :=
  w (Nat.iter k (sweep M N) st).

Definition change (M N : nat) (st : state) (k : nat) : grid :=
  fun i j => grid_after M N st (S k) i j - grid_after M N st k i j.

Definition within (b x : Q) : Prop := - b <= x <= b.

(** [shrink i] is [1 - (1/4)^i]. *)
Fixpoint shrink (i : nat) : Q :=
  match i with
  | O => 0
  | S i' => (shrink i' + 3) * (1 # 4)
  end.

Definition row_bound (t i : nat) : Q := if (i <=? t)%nat then shrink i else 1.

(** [geometric r n d] is [d * r^n]. *)
Fixpoint geometric (r : Q) (n : nat) (d : Q) : Q :=
  match n with
  | O => d
  | S n' => geometric r n' d * r
  end.

(** ** Output *)

(** What the body of the [while] loop prints in the sweep that starts from
    [st]: the line [iterations  diff] when the counter has reached
    [iterations_print], nothing otherwise.  A line is the pair of the two
    numbers printed. *)
Definition sweep_print (M N : nat) (st : state) : list (Z * Q) :=
  let st := relax M N (set_diff (save_old M N st) 0) in
  let st := set_iterations st (iterations st + 1) in
  if (iterations st =? iterations_print st)%Z
  then [(iterations st, diff st)]
  else [].

(** The progress lines of the first [k] sweeps from [st]. *)
Definition progress_lines (M N : nat) (k : nat) (st : state) : list (Z * Q) :=
  flat_map (fun n => sweep_print M N (Nat.iter n (sweep M N) st)) (seq 0 k).






(** [n] is a power of two. *)
Definition power_of_two (n : Z) : bool := (n =? 2 ^ Z.log2 n)%Z.

(** The grid is its own mirror image, left to right. *)
Definition mirror_symmetric (M N : nat) (g : grid) : Prop :=
  forall i j, (i < M)%nat -> (j < N)%nat -> g i j == g i (N - 1 - j)%nat.

(** ** The program with binary64 arithmetic

    The same functions, statement for statement, over the binary64 numbers
    of the machine: every [+], [-], [/], [fabs], [<] and [<=] of the source
    is the IEEE operation, rounded to nearest.  This is the arithmetic that
    the program runs with; the functions above are its exact reading.  The
    module is used to run the program on small plates. *)
Module B64.

Import PrimFloat.

Definition grid : Type := nat -> nat -> float.

Definition upd (g : grid) (i j : nat) (v : float) : grid :=
  fun a b => if (Nat.eqb a i && Nat.eqb b j)%bool then v else g a b.

Record state : Type := mkState {
  w : grid;
  u : grid;
  diff : float;
  epsilon : float;
  mean : float;
  iterations : Z;
  iterations_print : Z
}.

Definition set_w (st : state) (g : grid) : state :=
  mkState g (u st) (diff st) (epsilon st) (mean st) (iterations st) (iterations_print st).
Definition set_u (st : state) (g : grid) : state :=
  mkState (w st) g (diff st) (epsilon st) (mean st) (iterations st) (iterations_print st).
Definition set_diff (st : state) (d : float) : state :=
  mkState (w st) (u st) d (epsilon st) (mean st) (iterations st) (iterations_print st).
Definition set_epsilon (st : state) (e : float) : state :=
  mkState (w st) (u st) (diff st) e (mean st) (iterations st) (iterations_print st).
Definition set_mean (st : state) (m : float) : state :=
  mkState (w st) (u st) (diff st) (epsilon st) m (iterations st) (iterations_print st).
Definition set_iterations (st : state) (k : Z) : state :=
  mkState (w st) (u st) (diff st) (epsilon st) (mean st) k (iterations_print st).
Definition set_iterations_print (st : state) (k : Z) : state :=
  mkState (w st) (u st) (diff st) (epsilon st) (mean st) (iterations st) k.

Definition globals : state :=
  mkState (fun _ _ => 0%float) (fun _ _ => 0%float) 0%float 0%float 0%float 0%Z 0%Z.

(** [(double) n] for an [int] that is not negative. *)
Definition of_int (n : Z) : float := of_uint63 (Uint63.of_Z n).

Definition setBoundaryValue (M N : nat) (st : state) : state :=
  let st := for_loop 1 (M - 1) (fun i st => set_w st (upd (w st) i 0 100%float)) st in
  let st := for_loop 1 (M - 1) (fun i st => set_w st (upd (w st) i (N - 1) 100%float)) st in
  let st := for_loop 0 N (fun j st => set_w st (upd (w st) (M - 1) j 100%float)) st in
  for_loop 0 N (fun j st => set_w st (upd (w st) 0 j 0%float)) st.

Definition setAverageBoundary (M N : nat) (st : state) : state :=
  let st := set_mean st 0%float in
  let st := for_loop 1 (M - 1) (fun i st => set_mean st (mean st + w st i 0%nat)%float) st in
  let st :=
    for_loop 1 (M - 1) (fun i st => set_mean st (mean st + w st i (N - 1)%nat)%float) st in
  let st := for_loop 0 N (fun j st => set_mean st (mean st + w st (M - 1)%nat j)%float) st in
  let st := for_loop 0 N (fun j st => set_mean st (mean st + w st 0%nat j)%float) st in
  let st :=
    set_mean st (mean st / of_int (2 * Z.of_nat M + 2 * Z.of_nat N - 4))%float in
  for_loop 1 (M - 1) (fun i st =>
    for_loop 1 (N - 1) (fun j st => set_w st (upd (w st) i j (mean st))) st) st.

Definition save_old (M N : nat) (st : state) : state :=
  for_loop 0 M (fun i st =>
    for_loop 0 N (fun j st => set_u st (upd (u st) i j (w st i j))) st) st.

Definition relax_cell (i j : nat) (st : state) : state :=
  let st :=
    set_w st (upd (w st) i j
      ((u st (i - 1)%nat j + u st (i + 1)%nat j
        + u st i (j - 1)%nat + u st i (j + 1)%nat) / 4)%float) in
  if (diff st <? abs (w st i j - u st i j))%float
  then set_diff st (abs (w st i j - u st i j)%float)
  else st.

Definition relax (M N : nat) (st : state) : state :=
  for_loop 1 (M - 1) (fun i st => for_loop 1 (N - 1) (fun j st => relax_cell i j st) st) st.

Definition count_iteration (st : state) : state :=
  let st := set_iterations st (iterations st + 1) in
  if (iterations st =? iterations_print st)%Z
  then set_iterations_print st (2 * iterations_print st)
  else st.

Definition sweep (M N : nat) (st : state) : state :=
  let st := save_old M N st in
  let st := set_diff st 0%float in
  let st := relax M N st in
  count_iteration st.

Fixpoint getHeat_loop (M N : nat) (fuel : nat) (st : state) : option state :=
  match fuel with
  | O => None
  | S f =>
      if (epsilon st <=? diff st)%float
      then getHeat_loop M N f (sweep M N st)
      else Some st
  end.

Definition getHeat (M N : nat) (fuel : nat) (st : state) : option state :=
  getHeat_loop M N fuel (set_iterations_print (set_iterations st 0) 1).

Definition main_setup (e : float) : state :=
  let st := set_epsilon globals e in
  set_diff st (epsilon st).

Definition initialize (M N : nat) (st : state) : state :=
  setAverageBoundary M N (setBoundaryValue M N st).

Definition main (M N : nat) (fuel : nat) (arg_eps : option float)
    (arg_file : option string) : option (Z * state) :=
  match arg_eps with
  | None => Some (1%Z, globals)
  | Some e =>
      let st := main_setup e in
      match arg_file with
      | None => Some (1%Z, st)
      | Some _ =>
          match getHeat M N fuel (initialize M N st) with
          | None => None
          | Some st' => Some (0%Z, st')
          end
      end
  end.

(** The rational number that a finite binary64 number is. *)
Definition to_Q (x : float) : Q :=
  match FloatOps.Prim2SF x with
  | SpecFloat.S754_finite s m e =>
      let v := inject_Z (Zpos m) * Qpower 2 e in
      if s then - v else v
  | _ => 0
  end.

(** [|x - (n + s + w + e) / 4|], computed as the program would. *)
Definition residual (g : grid) (i j : nat) : float :=
  abs (g i j - (g (i - 1)%nat j + g (i + 1)%nat j
                + g i (j - 1)%nat + g i (j + 1)%nat) / 4)%float.

(** The same quantity for the numbers that the cells hold, without
    rounding. *)
Definition exact_residual (g : grid) (i j : nat) : Q :=
  Qabs (to_Q (g i j)
        - (to_Q (g (i - 1)%nat j) + to_Q (g (i + 1)%nat j)
           + to_Q (g i (j - 1)%nat) + to_Q (g i (j + 1)%nat)) / 4).

End B64.

(** ** The two inputs of [main]

    [main] above starts where both inputs have been obtained.  How they
    are obtained depends on the number of command-line arguments.

    - With no argument, [cin >> epsilon] stores what was typed (zero when
      it is not a number) and nothing is checked.
    - With an argument, [sscanf(argv[1], "%f", &epsilon)] converts it to a
      binary32 number and stores its four bytes at the address of the
      double [epsilon], whose other four bytes stay zero as static storage
      left them.  On a little-endian machine these are the low 32 bits of
      the double, so that [epsilon] holds the subnormal number
      [bits * 2^-1074], where [bits] is the bit pattern of the binary32
      number.  When nothing could be converted, [main] returns 1.
    - The file name is read with [cin] (no check) or with
      [sscanf(argv[2], "%s", ...)], after which [main] returns 1 when
      nothing was converted. *)



    (* a1 EPS NAME *)



(** * Loops as folds *)

Section Loops.

Context {S : Type}.

Lemma for_count_fold (body : nat -> S -> S) :
  forall cnt k s,
    for_count cnt k body s = fold_left (fun s i => body i s) (seq k cnt) s.
Proof.
  induction cnt as [|cnt IH]; intros k s; simpl; [reflexivity|].
  apply IH.
Qed.

Lemma for_loop_fold (body : nat -> S -> S) lo hi s :
  for_loop lo hi body s = fold_left (fun s i => body i s) (seq lo (hi - lo)) s.
Proof. apply for_count_fold. Qed.

Lemma fold_left_map {A B : Type} (f : S -> B -> S) (g : A -> B) :
  forall l s, fold_left f (map g l) s = fold_left (fun s a => f s (g a)) l s.
Proof. induction l as [|a l IH]; intros s; simpl; auto. Qed.

Lemma fold_left_flat_map {A B : Type} (f : S -> B -> S) (g : A -> list B) :
  forall l s,
    fold_left f (flat_map g l) s = fold_left (fun s a => fold_left f (g a) s) l s.
Proof.
  induction l as [|a l IH]; intros s; simpl; [reflexivity|].
  rewrite fold_left_app. apply IH.
Qed.

Lemma fold_left_ext_eq {A : Type} (f g : S -> A -> S) :
  (forall s a, f s a = g s a) ->
  forall l s, fold_left f l s = fold_left g l s.
Proof.
  intros E; induction l as [|a l IH]; intros s; simpl; [reflexivity|].
  rewrite E. apply IH.
Qed.

(** A loop over a column. *)
Lemma col_loop_fold (f : nat -> nat -> S -> S) lo hi c s :
  for_loop lo hi (fun i s => f i c s) s
  = fold_left (fun s x => f (fst x) (snd x) s) (col_cells lo hi c) s.
Proof.
  rewrite for_loop_fold. unfold col_cells. rewrite fold_left_map. reflexivity.
Qed.

(** A loop over a row. *)
Lemma row_loop_fold (f : nat -> nat -> S -> S) r lo hi s :
  for_loop lo hi (fun j s => f r j s) s
  = fold_left (fun s x => f (fst x) (snd x) s) (row_cells r lo hi) s.
Proof.
  rewrite for_loop_fold. unfold row_cells. rewrite fold_left_map. reflexivity.
Qed.

(** Two nested loops. *)
Lemma nested_loop_fold (f : nat -> nat -> S -> S) r0 r1 c0 c1 s :
  for_loop r0 r1 (fun i s => for_loop c0 c1 (fun j s => f i j s) s) s
  = fold_left (fun s x => f (fst x) (snd x) s) (cells r0 r1 c0 c1) s.
Proof.
  rewrite for_loop_fold. unfold cells. rewrite fold_left_flat_map.
  apply fold_left_ext_eq. intros s' i. apply row_loop_fold.
Qed.

End Loops.

Lemma in_col_cells lo hi c a b :
  In (a, b) (col_cells lo hi c) <-> (lo <= a < hi /\ b = c)%nat.
Proof.
  unfold col_cells. rewrite in_map_iff. split.
  - intros [i [E I]]. apply in_seq in I. inversion E; subst. lia.
  - intros [H ->]. exists a. split; [reflexivity|]. apply in_seq. lia.
Qed.

Lemma in_row_cells r lo hi a b :
  In (a, b) (row_cells r lo hi) <-> (a = r /\ lo <= b < hi)%nat.
Proof.
  unfold row_cells. rewrite in_map_iff. split.
  - intros [j [E I]]. apply in_seq in I. inversion E; subst. lia.
  - intros [-> H]. exists b. split; [reflexivity|]. apply in_seq. lia.
Qed.

Lemma in_cells r0 r1 c0 c1 a b :
  In (a, b) (cells r0 r1 c0 c1) <-> (r0 <= a < r1 /\ c0 <= b < c1)%nat.
Proof.
  unfold cells. rewrite in_flat_map. split.
  - intros [i [I H]]. apply in_seq in I. apply in_row_cells in H. lia.
  - intros [H1 H2]. exists a. split; [apply in_seq; lia|].
    apply in_row_cells. lia.
Qed.

Lemma in_interior_cells M N a b :
  In (a, b) (interior_cells M N) <-> interior M N a b.
Proof. unfold interior_cells, interior. rewrite in_cells. lia. Qed.

Lemma in_all_cells M N a b :
  In (a, b) (all_cells M N) <-> (a < M /\ b < N)%nat.
Proof. unfold all_cells. rewrite in_cells. lia. Qed.

(** * Writes into a grid *)

Lemma upd_same g i j v : upd g i j v i j = v.
Proof. unfold upd. rewrite !Nat.eqb_refl. reflexivity. Qed.

Lemma upd_other g i j v a b : (a, b) <> (i, j) -> upd g i j v a b = g a b.
Proof.
  intros H. unfold upd.
  destruct (Nat.eqb_spec a i) as [->|]; [|reflexivity].
  destruct (Nat.eqb_spec b j) as [->|]; [|reflexivity].
  congruence.
Qed.

Lemma cell_eq_dec (c d : cell) : {c = d} + {c <> d}.
Proof. decide equality; apply Nat.eq_dec. Qed.

Lemma write_all_out val l : forall g a b,
  ~ In (a, b) l -> write_all val l g a b = g a b.
Proof.
  induction l as [|[i j] l IH]; intros g a b H; simpl; [reflexivity|].
  unfold write_all in *. simpl. rewrite IH by (intros I; apply H; right; exact I).
  apply upd_other. intros E. apply H. left. symmetry. exact E.
Qed.

Lemma write_all_in val l : forall g a b,
  In (a, b) l -> write_all val l g a b = val (a, b).
Proof.
  induction l as [|[i j] l IH]; intros g a b H; [contradiction|].
  unfold write_all in *. simpl.
  destruct (in_dec cell_eq_dec (a, b) l) as [I|I].
  - apply IH. exact I.
  - destruct H as [E|H]; [|contradiction]. inversion E; subst.
    fold (write_all val l (upd g a b (val (a, b)))).
    rewrite write_all_out by exact I. apply upd_same.
Qed.

(** * What each loop of the program computes *)

Lemma stamp_fold (v : Q) l : forall st,
  fold_left (fun st (c : cell) => set_w st (upd (w st) (fst c) (snd c) v)) l st
  = set_w st (write_all (fun _ => v) l (w st)).
Proof.
  induction l as [|c l IH]; intros st; simpl.
  - destruct st; reflexivity.
  - rewrite IH. reflexivity.
Qed.

Lemma fill_fold l : forall st,
  fold_left (fun st (c : cell) => set_w st (upd (w st) (fst c) (snd c) (mean st))) l st
  = set_w st (write_all (fun _ => mean st) l (w st)).
Proof.
  induction l as [|c l IH]; intros st; simpl.
  - destruct st; reflexivity.
  - rewrite IH. reflexivity.
Qed.

Lemma add_fold (l : list cell) : forall st,
  fold_left (fun st (c : cell) => set_mean st (mean st + w st (fst c) (snd c))) l st
  = set_mean st (fold_left (fun m c => m + at_cell (w st) c) l (mean st)).
Proof.
  induction l as [|c l IH]; intros st; simpl.
  - destruct st; reflexivity.
  - rewrite IH. reflexivity.
Qed.

Lemma save_fold l : forall st,
  fold_left
    (fun st (c : cell) => set_u st (upd (u st) (fst c) (snd c) (w st (fst c) (snd c))))
    l st
  = set_u st (write_all (at_cell (w st)) l (u st)).
Proof.
  induction l as [|c l IH]; intros st; simpl.
  - destruct st; reflexivity.
  - rewrite IH. reflexivity.
Qed.

Lemma relax_cell_eq i j st :
  relax_cell i j st
  = set_diff (set_w st (upd (w st) i j (neighbour_avg (u st) (i, j))))
      (bump (diff st) (Qabs (neighbour_avg (u st) (i, j) - u st i j))).
Proof.
  unfold relax_cell, bump, neighbour_avg. cbn [fst snd w u diff set_w].
  rewrite upd_same.
  destruct (Qlt_bool _ _); [reflexivity|]. destruct st; reflexivity.
Qed.

Lemma relax_fold l : forall st,
  fold_left (fun st (c : cell) => relax_cell (fst c) (snd c) st) l st
  = set_diff (set_w st (write_all (neighbour_avg (u st)) l (w st)))
      (fold_left
         (fun d c => bump d (Qabs (neighbour_avg (u st) c - at_cell (u st) c)))
         l (diff st)).
Proof.
  induction l as [|[i j] l IH]; intros st; simpl.
  - destruct st; reflexivity.
  - rewrite IH, relax_cell_eq. reflexivity.
Qed.

Section PlateFacts.

Variables M N : nat.

Lemma setBoundaryValue_eq st :
  setBoundaryValue M N st
  = set_w st
      (write_all (fun _ => 0) (row_cells 0 0 N)
         (write_all (fun _ => 100) (row_cells (M - 1) 0 N)
            (write_all (fun _ => 100) (col_cells 1 (M - 1) (N - 1))
               (write_all (fun _ => 100) (col_cells 1 (M - 1) 0) (w st))))).
Proof.
  unfold setBoundaryValue.
  rewrite (col_loop_fold (fun i c st => set_w st (upd (w st) i c 100)) 1 (M - 1) 0).
  rewrite (col_loop_fold (fun i c st => set_w st (upd (w st) i c 100)) 1 (M - 1) (N - 1)).
  rewrite (row_loop_fold (fun r j st => set_w st (upd (w st) r j 100)) (M - 1) 0 N).
  rewrite (row_loop_fold (fun r j st => set_w st (upd (w st) r j 0)) 0 0 N).
  rewrite !stamp_fold. reflexivity.
Qed.

(** The value that [setAverageBoundary] leaves in [mean]. *)
Lemma setAverageBoundary_eq st :
  setAverageBoundary M N st
  = let m :=
      fold_left (fun m c => m + at_cell (w st) c) (boundary_cells M N) 0
      / inject_Z (2 * Z.of_nat M + 2 * Z.of_nat N - 4) in
    set_w (set_mean st m) (write_all (fun _ => m) (interior_cells M N) (w st)).
Proof.
  unfold setAverageBoundary.
  rewrite (col_loop_fold (fun i c st => set_mean st (mean st + w st i c)) 1 (M - 1) 0%nat).
  rewrite (col_loop_fold (fun i c st => set_mean st (mean st + w st i c)) 1 (M - 1) (N - 1)%nat).
  rewrite (row_loop_fold (fun r j st => set_mean st (mean st + w st r j)) (M - 1)%nat 0 N).
  rewrite (row_loop_fold (fun r j st => set_mean st (mean st + w st r j)) 0%nat 0 N).
  rewrite (nested_loop_fold (fun i j st => set_w st (upd (w st) i j (mean st)))).
  rewrite !add_fold, fill_fold. cbn [mean w set_mean set_w].
  unfold boundary_cells. rewrite !fold_left_app. reflexivity.
Qed.

Lemma save_old_eq st :
  save_old M N st = set_u st (write_all (at_cell (w st)) (all_cells M N) (u st)).
Proof.
  unfold save_old.
  rewrite (nested_loop_fold (fun i j st => set_u st (upd (u st) i j (w st i j)))).
  apply save_fold.
Qed.

Lemma relax_eq st :
  relax M N st
  = set_diff (set_w st (write_all (neighbour_avg (u st)) (interior_cells M N) (w st)))
      (fold_left
         (fun d c => bump d (Qabs (neighbour_avg (u st) c - at_cell (u st) c)))
         (interior_cells M N) (diff st)).
Proof.
  unfold relax. rewrite (nested_loop_fold relax_cell). apply relax_fold.
Qed.

End PlateFacts.

(** * The running maximum *)

Lemma Qlt_bool_iff a b : Qlt_bool a b = true <-> a < b.
Proof.
  unfold Qlt_bool. rewrite negb_true_iff, <- not_true_iff_false, Qle_bool_iff.
  split; [apply Qnot_le_lt | apply Qlt_not_le].
Qed.

Lemma Qle_bool_false a b : Qle_bool a b = false <-> b < a.
Proof.
  rewrite <- not_true_iff_false, Qle_bool_iff.
  split; [apply Qnot_le_lt | apply Qlt_not_le].
Qed.

Lemma bump_cases d x : (bump d x = x /\ d < x) \/ (bump d x = d /\ x <= d).
Proof.
  unfold bump. destruct (Qlt_bool d x) eqn:E.
  - left. split; [reflexivity|]. apply Qlt_bool_iff, E.
  - right. split; [reflexivity|].
    apply Qnot_lt_le. intros H. apply Qlt_bool_iff in H. congruence.
Qed.

(** [bump] is the maximum. *)
Lemma bump_is_max d x : bump d x == Qmax d x.
Proof.
  destruct (bump_cases d x) as [[-> H]|[-> H]].
  - symmetry. apply Q.max_r, Qlt_le_weak, H.
  - symmetry. apply Q.max_l, H.
Qed.

Lemma bump_ge_l d x : d <= bump d x.
Proof. destruct (bump_cases d x) as [[-> H]|[-> H]]; lra. Qed.

Lemma bump_ge_r d x : x <= bump d x.
Proof. destruct (bump_cases d x) as [[-> H]|[-> H]]; lra. Qed.

Section RunningMax.

Variable f : cell -> Q.

Lemma run_ge_start l : forall d, d <= running_max f l d.
Proof.
  induction l as [|c l IH]; intros d; simpl; [lra|].
  eapply Qle_trans; [apply (bump_ge_l d (f c)) | apply IH].
Qed.

Lemma run_ge_each l : forall d c, In c l -> f c <= running_max f l d.
Proof.
  induction l as [|a l IH]; intros d c H; [contradiction|]. simpl.
  destruct H as [->|H]; [|apply IH, H].
  eapply Qle_trans; [apply (bump_ge_r d (f c)) | apply run_ge_start].
Qed.

Lemma run_attained l : forall d,
  running_max f l d = d \/ exists c, In c l /\ running_max f l d = f c.
Proof.
  induction l as [|a l IH]; intros d; [left; reflexivity|].
  change (running_max f (a :: l) d) with (running_max f l (bump d (f a))).
  destruct (IH (bump d (f a))) as [E|[c [I E]]].
  - destruct (bump_cases d (f a)) as [[B _]|[B _]].
    + right. exists a. split; [left; reflexivity|]. rewrite E. exact B.
    + left. rewrite E. exact B.
  - right. exists c. split; [right; exact I | exact E].
Qed.

Lemma run_le_bound l b : forall d,
  d <= b -> (forall c, In c l -> f c <= b) -> running_max f l d <= b.
Proof.
  intros d Hd Hl. destruct (run_attained l d) as [->|[c [I ->]]]; auto.
Qed.

End RunningMax.

Lemma max_change_ge_start g l d : d <= max_change g l d.
Proof. apply (run_ge_start (fun c => Qabs (neighbour_avg g c - at_cell g c))). Qed.

Lemma max_change_ge_each g l d c :
  In c l -> Qabs (neighbour_avg g c - at_cell g c) <= max_change g l d.
Proof. apply (run_ge_each (fun c => Qabs (neighbour_avg g c - at_cell g c))). Qed.

Lemma max_change_attained g l d :
  max_change g l d = d
  \/ exists c, In c l /\ max_change g l d = Qabs (neighbour_avg g c - at_cell g c).
Proof. apply (run_attained (fun c => Qabs (neighbour_avg g c - at_cell g c))). Qed.

Lemma max_change_le_bound g l d b :
  d <= b ->
  (forall c, In c l -> Qabs (neighbour_avg g c - at_cell g c) <= b) ->
  max_change g l d <= b.
Proof. apply (run_le_bound (fun c => Qabs (neighbour_avg g c - at_cell g c))). Qed.

Lemma fold_left_ext_in {A B : Type} (f g : A -> B -> A) (l : list B) :
  (forall a b, In b l -> f a b = g a b) ->
  forall a, fold_left f l a = fold_left g l a.
Proof.
  induction l as [|b l IH]; intros E a; simpl; [reflexivity|].
  rewrite E by (left; reflexivity). apply IH. intros; apply E; right; assumption.
Qed.

(** * One sweep *)

Section SweepFacts.

Variables M N : nat.

Lemma count_iteration_w st : w (count_iteration st) = w st.
Proof. unfold count_iteration. destruct (Z.eqb _ _); reflexivity. Qed.
Lemma count_iteration_u st : u (count_iteration st) = u st.
Proof. unfold count_iteration. destruct (Z.eqb _ _); reflexivity. Qed.
Lemma count_iteration_diff st : diff (count_iteration st) = diff st.
Proof. unfold count_iteration. destruct (Z.eqb _ _); reflexivity. Qed.
Lemma count_iteration_epsilon st : epsilon (count_iteration st) = epsilon st.
Proof. unfold count_iteration. destruct (Z.eqb _ _); reflexivity. Qed.
Lemma count_iteration_mean st : mean (count_iteration st) = mean st.
Proof. unfold count_iteration. destruct (Z.eqb _ _); reflexivity. Qed.
Lemma count_iteration_iterations st :
  iterations (count_iteration st) = (iterations st + 1)%Z.
Proof. unfold count_iteration. destruct (Z.eqb _ _); reflexivity. Qed.

Lemma sweep_epsilon st : epsilon (sweep M N st) = epsilon st.
Proof.
  unfold sweep. rewrite count_iteration_epsilon, relax_eq, save_old_eq. reflexivity.
Qed.

Lemma sweep_mean st : mean (sweep M N st) = mean st.
Proof.
  unfold sweep. rewrite count_iteration_mean, relax_eq, save_old_eq. reflexivity.
Qed.

Lemma sweep_iterations st : iterations (sweep M N st) = (iterations st + 1)%Z.
Proof.
  unfold sweep. rewrite count_iteration_iterations, relax_eq, save_old_eq. reflexivity.
Qed.

(** The snapshot: every cell of the plate is copied. *)
Lemma save_old_u st i j :
  (i < M)%nat -> (j < N)%nat -> u (save_old M N st) i j = w st i j.
Proof.
  intros Hi Hj. rewrite save_old_eq. cbn [u set_u].
  rewrite write_all_in by (apply in_all_cells; lia). reflexivity.
Qed.

Lemma save_old_w st : w (save_old M N st) = w st.
Proof. rewrite save_old_eq. reflexivity. Qed.

Lemma sweep_u st i j :
  (i < M)%nat -> (j < N)%nat -> u (sweep M N st) i j = w st i j.
Proof.
  intros Hi Hj. unfold sweep. rewrite count_iteration_u, relax_eq.
  cbn [u set_diff set_w]. apply save_old_u; assumption.
Qed.

(** The neighbours of an interior cell are cells of the plate, so the
    snapshot and the grid before the sweep agree on them. *)
Lemma snapshot_avg st c :
  In c (interior_cells M N) ->
  neighbour_avg (u (save_old M N st)) c = neighbour_avg (w st) c.
Proof.
  destruct c as [i j]. intros H. apply in_interior_cells in H.
  destruct H as [Hi Hj]. unfold neighbour_avg. cbn [fst snd].
  rewrite !save_old_u by lia. reflexivity.
Qed.

Lemma snapshot_at st c :
  In c (interior_cells M N) -> at_cell (u (save_old M N st)) c = at_cell (w st) c.
Proof.
  destruct c as [i j]. intros H. apply in_interior_cells in H.
  destruct H as [Hi Hj]. unfold at_cell. cbn [fst snd].
  apply save_old_u; lia.
Qed.

Lemma jacobi_interior g i j :
  interior M N i j -> jacobi M N g i j = neighbour_avg g (i, j).
Proof.
  intros [[H1 H2] [H3 H4]]. unfold jacobi.
  apply Nat.leb_le in H1, H2, H3, H4. rewrite H1, H2, H3, H4. reflexivity.
Qed.

Lemma jacobi_other g i j :
  ~ interior M N i j -> jacobi M N g i j = g i j.
Proof.
  intros H. unfold jacobi.
  destruct (Nat.leb_spec 1 i); [|reflexivity].
  destruct (Nat.leb_spec i (M - 2)); [|reflexivity].
  destruct (Nat.leb_spec 1 j); [|reflexivity].
  destruct (Nat.leb_spec j (N - 2)); [|reflexivity].
  exfalso. apply H. unfold interior. lia.
Qed.

Lemma interior_dec i j : {interior M N i j} + {~ interior M N i j}.
Proof.
  unfold interior.
  destruct (le_dec 1 i), (le_dec i (M - 2)), (le_dec 1 j), (le_dec j (N - 2));
    try (left; lia); right; lia.
Qed.

(** The grid after a sweep is the Jacobi step of the grid before it. *)
Lemma sweep_w st i j : w (sweep M N st) i j = jacobi M N (w st) i j.
Proof.
  unfold sweep. rewrite count_iteration_w, relax_eq. cbn [w u set_diff set_w].
  rewrite save_old_w.
  destruct (interior_dec i j) as [H|H].
  - rewrite write_all_in by (apply in_interior_cells; exact H).
    rewrite snapshot_avg by (apply in_interior_cells; exact H).
    symmetry. apply jacobi_interior, H.
  - rewrite write_all_out by (rewrite in_interior_cells; exact H).
    symmetry. apply jacobi_other, H.
Qed.

(** [diff] after a sweep is the running maximum, from zero, of the
    changes of the interior cells. *)
Lemma sweep_diff st :
  diff (sweep M N st) = max_change (w st) (interior_cells M N) 0.
Proof.
  unfold sweep. rewrite count_iteration_diff, relax_eq. cbn [w u diff set_diff set_w].
  unfold max_change, running_max. apply fold_left_ext_in. intros d c H.
  rewrite snapshot_avg, snapshot_at by exact H. reflexivity.
Qed.

Lemma sweep_diff_nonneg st : 0 <= diff (sweep M N st).
Proof. rewrite sweep_diff. apply max_change_ge_start. Qed.

End SweepFacts.

(** * Initialisation *)

Section InitFacts.

Variables M N : nat.

Lemma setBoundaryValue_frame st :
  u (setBoundaryValue M N st) = u st
  /\ diff (setBoundaryValue M N st) = diff st
  /\ epsilon (setBoundaryValue M N st) = epsilon st.
Proof. rewrite setBoundaryValue_eq. repeat split. Qed.

Lemma initialize_frame st :
  u (initialize M N st) = u st
  /\ diff (initialize M N st) = diff st
  /\ epsilon (initialize M N st) = epsilon st.
Proof.
  unfold initialize. rewrite setAverageBoundary_eq. cbn.
  apply setBoundaryValue_frame.
Qed.

(** The grid after [setBoundaryValue], cell by cell. *)
Lemma stamped_north st j :
  (j < N)%nat -> w (setBoundaryValue M N st) 0%nat j = 0.
Proof.
  intros Hj. rewrite setBoundaryValue_eq. cbn [w set_w].
  apply (write_all_in (fun _ => 0)), in_row_cells. lia.
Qed.

Lemma stamped_south st j :
  (2 <= M)%nat -> (j < N)%nat -> w (setBoundaryValue M N st) (M - 1)%nat j = 100.
Proof.
  intros HM Hj. rewrite setBoundaryValue_eq. cbn [w set_w].
  rewrite write_all_out by (rewrite in_row_cells; lia).
  apply (write_all_in (fun _ => 100)), in_row_cells. lia.
Qed.

Lemma stamped_east st i :
  (1 <= i <= M - 2)%nat -> w (setBoundaryValue M N st) i (N - 1)%nat = 100.
Proof.
  intros Hi. rewrite setBoundaryValue_eq. cbn [w set_w].
  rewrite !write_all_out by (rewrite in_row_cells; lia).
  apply (write_all_in (fun _ => 100)), in_col_cells. lia.
Qed.

Lemma stamped_west st i :
  (1 <= i <= M - 2)%nat -> w (setBoundaryValue M N st) i 0%nat = 100.
Proof.
  intros Hi. rewrite setBoundaryValue_eq. cbn [w set_w].
  rewrite !write_all_out by (rewrite in_row_cells; lia).
  destruct (Nat.eq_dec (N - 1) 0) as [->|HN].
  - apply (write_all_in (fun _ => 100)), in_col_cells. lia.
  - rewrite write_all_out by (rewrite in_col_cells; lia).
    apply (write_all_in (fun _ => 100)), in_col_cells. lia.
Qed.

(** The mean fill writes interior cells only, and [mean] into each. *)
Lemma initialize_interior st i j :
  interior M N i j -> w (initialize M N st) i j = mean (initialize M N st).
Proof.
  intros H. unfold initialize. rewrite setAverageBoundary_eq. cbn [w mean set_w set_mean].
  rewrite write_all_in by (apply in_interior_cells; exact H). reflexivity.
Qed.

Lemma initialize_other st i j :
  ~ interior M N i j -> w (initialize M N st) i j = w (setBoundaryValue M N st) i j.
Proof.
  intros H. unfold initialize. rewrite setAverageBoundary_eq. cbn [w set_w set_mean].
  apply write_all_out. rewrite in_interior_cells. exact H.
Qed.

Lemma initialize_mean st :
  mean (initialize M N st)
  = fold_left (fun m c => m + at_cell (w (setBoundaryValue M N st)) c)
      (boundary_cells M N) 0
    / inject_Z (2 * Z.of_nat M + 2 * Z.of_nat N - 4).
Proof. unfold initialize. rewrite setAverageBoundary_eq. reflexivity. Qed.

(** *** The boundary cells *)

Lemma in_boundary_cells a b :
  (2 <= M)%nat -> (2 <= N)%nat ->
  In (a, b) (boundary_cells M N) <-> on_boundary M N a b.
Proof.
  intros HM HN. unfold boundary_cells, on_boundary.
  rewrite !in_app_iff, !in_col_cells, !in_row_cells. lia.
Qed.

Lemma NoDup_map_inj {A B : Type} (f : A -> B) l :
  (forall x y, f x = f y -> x = y) -> NoDup l -> NoDup (map f l).
Proof.
  intros Hf. induction 1 as [|x l Hx Hl IH]; simpl; constructor; auto.
  rewrite in_map_iff. intros [y [E I]]. apply Hf in E. subst. contradiction.
Qed.

Lemma NoDup_col_cells lo hi c : NoDup (col_cells lo hi c).
Proof.
  apply NoDup_map_inj; [|apply seq_NoDup]. intros x y E. congruence.
Qed.

Lemma NoDup_row_cells r lo hi : NoDup (row_cells r lo hi).
Proof.
  apply NoDup_map_inj; [|apply seq_NoDup]. intros x y E. congruence.
Qed.

Lemma NoDup_app_disjoint {A : Type} (l1 l2 : list A) :
  NoDup l1 -> NoDup l2 -> (forall x, In x l1 -> ~ In x l2) -> NoDup (l1 ++ l2).
Proof.
  induction 1 as [|x l Hx Hl IH]; intros H2 D; simpl; [exact H2|].
  constructor.
  - rewrite in_app_iff. intros [I|I]; [contradiction|].
    apply (D x); [left; reflexivity | exact I].
  - apply IH; [exact H2|]. intros y Iy. apply D. right. exact Iy.
Qed.

(** Each boundary cell is added to the sum once. *)
Lemma NoDup_boundary_cells :
  (2 <= M)%nat -> (2 <= N)%nat -> NoDup (boundary_cells M N).
Proof.
  intros HM HN. unfold boundary_cells.
  apply NoDup_app_disjoint; [apply NoDup_col_cells | |].
  - apply NoDup_app_disjoint; [apply NoDup_col_cells | |].
    + apply NoDup_app_disjoint; [apply NoDup_row_cells | apply NoDup_row_cells |].
      intros [a b]. rewrite !in_row_cells. lia.
    + intros [a b]. rewrite in_app_iff, in_col_cells, !in_row_cells. lia.
  - intros [a b]. rewrite !in_app_iff, !in_col_cells, !in_row_cells. lia.
Qed.

Lemma length_boundary_cells :
  (2 <= M)%nat -> length (boundary_cells M N) = (2 * M + 2 * N - 4)%nat.
Proof.
  intros HM. unfold boundary_cells, col_cells, row_cells.
  rewrite !length_app, !length_map, !length_seq. lia.
Qed.

Lemma boundary_count :
  (2 <= M)%nat ->
  inject_Z (2 * Z.of_nat M + 2 * Z.of_nat N - 4)
  = inject_Z (Z.of_nat (2 * M + 2 * N - 4)).
Proof. intros HM. f_equal. lia. Qed.

End InitFacts.

(** Adding up left to right from zero, as the loops do, gives the sum. *)
Lemma sum_fold_left (f : cell -> Q) l : forall acc,
  fold_left (fun m c => m + f c) l acc == acc + fold_right Qplus 0 (map f l).
Proof.
  induction l as [|c l IH]; intros acc; simpl.
  - ring.
  - rewrite IH. ring.
Qed.

Lemma sum_bounds (f : cell -> Q) lo hi l :
  (forall c, In c l -> lo <= f c <= hi) ->
  inject_Z (Z.of_nat (length l)) * lo <= fold_right Qplus 0 (map f l)
  /\ fold_right Qplus 0 (map f l) <= inject_Z (Z.of_nat (length l)) * hi.
Proof.
  induction l as [|c l IH]; intros H.
  - simpl. split; ring_simplify; apply Qle_refl.
  - destruct IH as [IH1 IH2]; [intros; apply H; right; assumption|].
    destruct (H c (or_introl eq_refl)) as [H1 H2].
    change (length (c :: l)) with (S (length l)).
    rewrite Nat2Z.inj_succ. unfold Z.succ. rewrite inject_Z_plus.
    simpl fold_right. split; ring_simplify; lra.
Qed.

(** * The sweep protocol *)

(** C1. A sweep is: snapshot, reset of [diff], relaxation of the interior,
    count.  The snapshot copies every cell of the plate; [diff] is zero
    when the relaxation starts; after the sweep an interior cell holds the
    quarter of the sum of its four neighbours in the snapshot, which are the
    values from before the sweep and not values written earlier in the same
    sweep; at each interior cell [diff] becomes the maximum of [diff] and
    [|new - old|], so at the end it is the running maximum of the changes
    over the interior cells in row-major order: it bounds every change and
    is either zero or the change of some interior cell.  Cells that are not
    interior are not written. *)
Theorem sweep_protocol (M N : nat) (st : state) (i j : nat) :
  interior M N i j ->
  let snap := save_old M N st in
  let st' := sweep M N st in
  sweep M N st = count_iteration (relax M N (set_diff snap 0))
  /\ (forall a b, (a < M)%nat -> (b < N)%nat -> u snap a b = w st a b)
  /\ w snap = w st
  /\ diff (set_diff snap 0) = 0
  /\ (forall a b, (a < M)%nat -> (b < N)%nat -> u st' a b = w st a b)
  /\ w st' i j
     = (u st' (i - 1)%nat j + u st' (i + 1)%nat j
        + u st' i (j - 1)%nat + u st' i (j + 1)%nat) / 4
  /\ w st' i j
     = (w st (i - 1)%nat j + w st (i + 1)%nat j
        + w st i (j - 1)%nat + w st i (j + 1)%nat) / 4
  /\ diff st' = max_change (w st) (interior_cells M N) 0
  /\ Qabs (w st' i j - u st' i j) <= diff st'
  /\ (diff st' = 0
      \/ exists a b, interior M N a b /\ diff st' = Qabs (w st' a b - u st' a b))
  /\ (forall a b, ~ interior M N a b -> w st' a b = w st a b)
  /\ (forall s,
        diff (relax_cell i j s)
        == Qmax (diff s) (Qabs (w (relax_cell i j s) i j - u s i j))).
Proof.
  intros H snap st'. subst snap st'.
  assert (Hw : forall a b, interior M N a b ->
            w (sweep M N st) a b = neighbour_avg (w st) (a, b)).
  { intros a b I. rewrite sweep_w. apply jacobi_interior, I. }
  assert (Hu : forall a b, interior M N a b -> u (sweep M N st) a b = w st a b).
  { intros a b [I1 I2]. apply sweep_u; lia. }
  split; [reflexivity|].
  split; [intros a b Ha Hb; apply save_old_u; assumption|].
  split; [apply save_old_w|].
  split; [reflexivity|].
  split; [intros a b Ha Hb; apply sweep_u; assumption|].
  split.
  { rewrite (Hw i j H). destruct H as [Hi Hj].
    rewrite !sweep_u by lia. reflexivity. }
  split; [rewrite (Hw i j H); reflexivity|].
  split; [apply sweep_diff|].
  split.
  { rewrite sweep_diff, (Hw i j H), (Hu i j H).
    apply (max_change_ge_each (w st) (interior_cells M N) 0 (i, j)).
    apply in_interior_cells, H. }
  split.
  { rewrite sweep_diff.
    destruct (max_change_attained (w st) (interior_cells M N) 0) as [E|[[a b] [I E]]].
    - left. exact E.
    - right. exists a, b. apply in_interior_cells in I. split; [exact I|].
      rewrite E, (Hw a b I), (Hu a b I). reflexivity. }
  split.
  { intros a b I. rewrite sweep_w. apply jacobi_other, I. }
  intros s. rewrite relax_cell_eq. cbn [diff w set_diff set_w].
  rewrite upd_same. apply bump_is_max.
Qed.

Lemma sweep_protocol_witness :
  let st := initialize 3 3 (main_setup 1) in
  w (sweep 3 3 st) 1%nat 1%nat
  = (w st 0%nat 1%nat + w st 2%nat 1%nat + w st 1%nat 0%nat + w st 1%nat 2%nat) / 4.
Proof.
  intros st.
  assert (I : interior 3 3 1 1) by (unfold interior; lia).
  exact (proj1 (proj2 (proj2 (proj2 (proj2 (proj2 (proj2
           (sweep_protocol 3 3 st 1 1 I)))))))).
Defined.

(** * The convergence loop *)

Lemma loop_entry_diff M N e : diff (loop_entry M N e) = e.
Proof.
  unfold loop_entry. cbn [diff set_iterations set_iterations_print].
  destruct (initialize_frame M N (main_setup e)) as [_ [-> _]]. reflexivity.
Qed.

Lemma loop_entry_epsilon M N e : epsilon (loop_entry M N e) = e.
Proof.
  unfold loop_entry. cbn [epsilon set_iterations set_iterations_print].
  destruct (initialize_frame M N (main_setup e)) as [_ [_ ->]]. reflexivity.
Qed.

Lemma loop_entry_iterations M N e : iterations (loop_entry M N e) = 0%Z.
Proof. reflexivity. Qed.

Lemma getHeat_loop_continue M N fuel st :
  epsilon st <= diff st ->
  getHeat_loop M N (S fuel) st = getHeat_loop M N fuel (sweep M N st).
Proof.
  intros H. simpl. apply Qle_bool_iff in H. rewrite H. reflexivity.
Qed.

Lemma getHeat_loop_stop M N fuel st :
  diff st < epsilon st -> getHeat_loop M N (S fuel) st = Some st.
Proof.
  intros H. simpl. apply Qle_bool_false in H. rewrite H. reflexivity.
Qed.

Lemma getHeat_loop_iterations M N : forall fuel st st',
  getHeat_loop M N fuel st = Some st' ->
  (iterations st <= iterations st')%Z
  /\ (iterations st = iterations st' -> st' = st).
Proof.
  induction fuel as [|fuel IH]; intros st st' H; [discriminate|].
  simpl in H. destruct (Qle_bool (epsilon st) (diff st)).
  - apply IH in H. rewrite sweep_iterations in H. split; lia.
  - inversion H; subst. split; [lia | reflexivity].
Qed.

Lemma main_run M N fuel e name :
  main M N fuel (Some e) (Some name)
  = option_map (fun st => (0%Z, st)) (getHeat_loop M N fuel (loop_entry M N e)).
Proof.
  unfold main, getHeat, loop_entry.
  destruct (getHeat_loop M N fuel _); reflexivity.
Qed.

(** C2. The loop is entered with [diff = epsilon]; the test
    [epsilon <= diff] comes before each sweep.  So for every tolerance, and
    hence for every [epsilon >= 0], zero included, the first test passes and
    a first sweep is made: a run that ends has counted at least one
    iteration.  At a test the loop stops when [diff < epsilon] and makes
    another sweep when not. *)
Theorem loop_state_machine (M N : nat) (e : Q) (fuel : nat) :
  0 <= e ->
  diff (loop_entry M N e) = epsilon (loop_entry M N e)
  /\ getHeat_loop M N (S fuel) (loop_entry M N e)
     = getHeat_loop M N fuel (sweep M N (loop_entry M N e))
  /\ (forall name code st',
        main M N fuel (Some e) (Some name) = Some (code, st') ->
        (1 <= iterations st')%Z)
  /\ (forall st,
        (diff st < epsilon st -> getHeat_loop M N (S fuel) st = Some st)
        /\ (~ diff st < epsilon st ->
            getHeat_loop M N (S fuel) st = getHeat_loop M N fuel (sweep M N st))
        /\ (getHeat_loop M N (S fuel) st = Some st <-> diff st < epsilon st)).
Proof.
  intros _.
  assert (E : getHeat_loop M N (S fuel) (loop_entry M N e)
              = getHeat_loop M N fuel (sweep M N (loop_entry M N e))).
  { apply getHeat_loop_continue.
    rewrite loop_entry_diff, loop_entry_epsilon. apply Qle_refl. }
  split; [rewrite loop_entry_diff, loop_entry_epsilon; reflexivity|].
  split; [exact E|].
  split.
  { intros name code st' H. rewrite main_run in H.
    destruct fuel as [|fuel]; [discriminate|].
    destruct (getHeat_loop M N (S fuel) (loop_entry M N e)) as [s|] eqn:G;
      [|discriminate].
    inversion H; subst.
    rewrite getHeat_loop_continue in G
      by (rewrite loop_entry_diff, loop_entry_epsilon; apply Qle_refl).
    apply getHeat_loop_iterations in G. rewrite sweep_iterations in G.
    rewrite loop_entry_iterations in G. lia. }
  intros st.
  assert (C : ~ diff st < epsilon st ->
              getHeat_loop M N (S fuel) st = getHeat_loop M N fuel (sweep M N st)).
  { intros H. apply getHeat_loop_continue. apply Qnot_lt_le, H. }
  split; [apply getHeat_loop_stop|]. split; [exact C|].
  split; [|apply getHeat_loop_stop].
  intros H. destruct (Qlt_le_dec (diff st) (epsilon st)) as [L|L]; [exact L|].
  exfalso. rewrite getHeat_loop_continue in H by exact L.
  apply getHeat_loop_iterations in H. rewrite sweep_iterations in H. lia.
Qed.

Lemma loop_state_machine_witness :
  getHeat_loop 3 3 1 (loop_entry 3 3 0)
  = getHeat_loop 3 3 0 (sweep 3 3 (loop_entry 3 3 0)).
Proof.
  assert (H : 0 <= 0) by apply Qle_refl.
  exact (proj1 (proj2 (loop_state_machine 3 3 0 0 H))).
Defined.

(** * The initial grid *)

(** C3. After the boundary is stamped (and still after the interior is
    filled), the west and the east column hold 100 in rows [1 .. M-2], row
    [0] holds 0 in all [N] columns and row [M-1] holds 100 in all [N]
    columns, corners included.  The column loops run over rows [1 .. M-2]
    only, so they never write a corner: the corners get their values from
    the two row loops. *)
Theorem boundary_invariant (M N : nat) (st : state) (i j : nat) :
  (3 <= M)%nat -> (3 <= N)%nat ->
  (1 <= i <= M - 2)%nat -> (j < N)%nat ->
  let b := w (setBoundaryValue M N st) in
  let g := w (initialize M N st) in
  (b i 0%nat = 100 /\ b i (N - 1)%nat = 100 /\ b 0%nat j = 0 /\ b (M - 1)%nat j = 100)
  /\ (g i 0%nat = 100 /\ g i (N - 1)%nat = 100 /\ g 0%nat j = 0 /\ g (M - 1)%nat j = 100)
  /\ (g 0%nat 0%nat = 0 /\ g 0%nat (N - 1)%nat = 0
      /\ g (M - 1)%nat 0%nat = 100 /\ g (M - 1)%nat (N - 1)%nat = 100)
  /\ (forall a c k, In (a, c) (col_cells 1 (M - 1) k) -> a <> 0%nat /\ a <> (M - 1)%nat).
Proof.
  intros HM HN Hi Hj b g. subst b g.
  assert (B : forall a c, ~ interior M N a c ->
            w (initialize M N st) a c = w (setBoundaryValue M N st) a c).
  { intros a c. apply initialize_other. }
  split.
  { repeat split.
    - apply stamped_west, Hi.
    - apply stamped_east, Hi.
    - apply stamped_north, Hj.
    - apply stamped_south; lia. }
  split.
  { repeat split.
    - rewrite B by (unfold interior; lia). apply stamped_west, Hi.
    - rewrite B by (unfold interior; lia). apply stamped_east, Hi.
    - rewrite B by (unfold interior; lia). apply stamped_north, Hj.
    - rewrite B by (unfold interior; lia). apply stamped_south; lia. }
  split.
  { repeat split.
    - rewrite B by (unfold interior; lia). apply stamped_north; lia.
    - rewrite B by (unfold interior; lia). apply stamped_north; lia.
    - rewrite B by (unfold interior; lia). apply stamped_south; lia.
    - rewrite B by (unfold interior; lia). apply stamped_south; lia. }
  intros a c k I. apply in_col_cells in I. lia.
Qed.

Lemma boundary_invariant_witness :
  let g := w (initialize 3 3 globals) in
  g 1%nat 0%nat = 100 /\ g 1%nat 2%nat = 100 /\ g 0%nat 2%nat = 0 /\ g 2%nat 2%nat = 100.
Proof.
  assert (H3 : (3 <= 3)%nat) by lia.
  assert (Hi : (1 <= 1 <= 3 - 2)%nat) by (simpl; lia).
  assert (Hj : (2 < 3)%nat) by lia.
  exact (proj1 (proj2 (boundary_invariant 3 3 globals 1 2 H3 H3 Hi Hj))).
Defined.

(** C4. After initialisation every interior cell holds [mean], and [mean]
    is the sum of the boundary cells divided by [2*M + 2*N - 4].  The cells
    added up are the two edge columns in rows [1 .. M-2] and the two full
    edge rows: exactly the cells on the boundary of the plate, each of them
    once, [2*M + 2*N - 4] of them. *)
Theorem mean_invariant (M N : nat) (st : state) (i j : nat) :
  (3 <= M)%nat -> (3 <= N)%nat -> interior M N i j ->
  let st' := initialize M N st in
  w st' i j = mean st'
  /\ mean st' == boundary_mean M N (w st')
  /\ mean st' == boundary_mean M N (w (setBoundaryValue M N st))
  /\ (forall a b, In (a, b) (boundary_cells M N) <-> on_boundary M N a b)
  /\ NoDup (boundary_cells M N)
  /\ length (boundary_cells M N) = (2 * M + 2 * N - 4)%nat.
Proof.
  intros HM HN H st'. subst st'.
  assert (S1 : mean (initialize M N st)
               == boundary_mean M N (w (setBoundaryValue M N st))).
  { rewrite initialize_mean. unfold boundary_mean.
    rewrite sum_fold_left, boundary_count by lia.
    apply Qdiv_comp; [ring | reflexivity]. }
  split; [apply initialize_interior, H|].
  split.
  { rewrite S1. unfold boundary_mean.
    apply Qdiv_comp; [|reflexivity].
    assert (E : map (at_cell (w (initialize M N st))) (boundary_cells M N)
                = map (at_cell (w (setBoundaryValue M N st))) (boundary_cells M N)).
    { apply map_ext_in. intros [a b] I. unfold at_cell. cbn [fst snd].
      apply initialize_other. apply in_boundary_cells in I; [|lia|lia].
      unfold on_boundary in I. unfold interior. lia. }
    rewrite E. reflexivity. }
  split; [exact S1|].
  split; [intros a b; apply in_boundary_cells; lia|].
  split; [apply NoDup_boundary_cells; lia | apply length_boundary_cells; lia].
Qed.

Lemma mean_invariant_witness :
  let st' := initialize 4 5 globals in
  w st' 2%nat 3%nat = mean st' /\ mean st' == boundary_mean 4 5 (w st').
Proof.
  assert (HM : (3 <= 4)%nat) by lia.
  assert (HN : (3 <= 5)%nat) by lia.
  assert (I : interior 4 5 2 3) by (unfold interior; simpl; lia).
  pose proof (mean_invariant 4 5 globals 2 3 HM HN I) as P.
  exact (conj (proj1 P) (proj1 (proj2 P))).
Defined.

(** * Values stay between the boundary values *)

Section RangeFacts.

Variables M N : nat.
Hypothesis HM : (2 <= M)%nat.
Hypothesis HN : (2 <= N)%nat.

Lemma stamped_boundary_value st a b :
  on_boundary M N a b ->
  w (setBoundaryValue M N st) a b = 0 \/ w (setBoundaryValue M N st) a b = 100.
Proof.
  intros [Ha [Hb H]].
  destruct (Nat.eq_dec a 0) as [->|A0]; [left; apply stamped_north, Hb|].
  right.
  destruct (Nat.eq_dec a (M - 1)) as [->|A1]; [apply stamped_south; assumption|].
  destruct H as [H|[H|[H|H]]]; try contradiction; subst b.
  - apply stamped_west. lia.
  - apply stamped_east. lia.
Qed.

Lemma boundary_count_pos : 0 < inject_Z (Z.of_nat (2 * M + 2 * N - 4)).
Proof.
  change 0 with (inject_Z 0). rewrite <- Zlt_Qlt. lia.
Qed.

Lemma initialize_mean_range st :
  0 <= mean (initialize M N st) <= 100.
Proof.
  rewrite initialize_mean, sum_fold_left, boundary_count by lia.
  destruct (sum_bounds (at_cell (w (setBoundaryValue M N st))) 0 100
              (boundary_cells M N)) as [L U].
  { intros [a b] I. apply in_boundary_cells in I; [|lia|lia].
    unfold at_cell. cbn [fst snd].
    destruct (stamped_boundary_value st a b I) as [-> | ->]; lra. }
  rewrite length_boundary_cells in L, U by lia.
  pose proof boundary_count_pos as P.
  split.
  - apply Qle_shift_div_l; [exact P|]. lra.
  - apply Qle_shift_div_r; [exact P|]. lra.
Qed.

Lemma not_interior_on_boundary a b :
  (a < M)%nat -> (b < N)%nat -> ~ interior M N a b -> on_boundary M N a b.
Proof. clear HM HN. unfold interior, on_boundary. lia. Qed.

Lemma initialize_range st a b :
  (a < M)%nat -> (b < N)%nat -> 0 <= w (initialize M N st) a b <= 100.
Proof.
  intros Ha Hb. destruct (interior_dec M N a b) as [I|I].
  - rewrite initialize_interior by exact I. apply initialize_mean_range.
  - rewrite initialize_other by exact I.
    destruct (stamped_boundary_value st a b) as [-> | ->];
      [apply not_interior_on_boundary; assumption | lra | lra].
Qed.

Lemma jacobi_range lo hi g :
  in_range M N lo hi g -> in_range M N lo hi (jacobi M N g).
Proof.
  clear HM HN.
  intros R a b Ha Hb. destruct (interior_dec M N a b) as [I|I].
  - rewrite jacobi_interior by exact I. destruct I as [Ia Ib].
    unfold neighbour_avg. cbn [fst snd].
    pose proof (R (a - 1)%nat b ltac:(lia) ltac:(lia)).
    pose proof (R (a + 1)%nat b ltac:(lia) ltac:(lia)).
    pose proof (R a (b - 1)%nat ltac:(lia) ltac:(lia)).
    pose proof (R a (b + 1)%nat ltac:(lia) ltac:(lia)).
    split.
    + apply Qle_shift_div_l; lra.
    + apply Qle_shift_div_r; lra.
  - rewrite jacobi_other by exact I. apply R; assumption.
Qed.

Lemma sweeps_range lo hi st k :
  in_range M N lo hi (w st) -> in_range M N lo hi (w (Nat.iter k (sweep M N) st)).
Proof.
  clear HM HN.
  intros R. induction k as [|k IH]; [exact R|].
  simpl. intros a b Ha Hb. rewrite sweep_w. apply jacobi_range; assumption.
Qed.

Lemma sweeps_boundary st k a b :
  ~ interior M N a b -> w (Nat.iter k (sweep M N) st) a b = w st a b.
Proof.
  clear HM HN.
  intros I. induction k as [|k IH]; [reflexivity|].
  simpl. rewrite sweep_w, jacobi_other by exact I. exact IH.
Qed.

End RangeFacts.

Lemma getHeat_loop_sweeps M N : forall fuel st st',
  getHeat_loop M N fuel st = Some st' ->
  exists k, st' = Nat.iter k (sweep M N) st /\ (k < fuel)%nat.
Proof.
  induction fuel as [|fuel IH]; intros st st' H; [discriminate|].
  simpl in H. destruct (Qle_bool (epsilon st) (diff st)).
  - apply IH in H. destruct H as [k [E L]]. exists (S k). split; [|lia].
    rewrite E. clear. induction k as [|k IH]; [reflexivity|].
    simpl. simpl in IH. rewrite IH. reflexivity.
  - inversion H; subst. exists 0%nat. split; [reflexivity | lia].
Qed.

Lemma loop_entry_w M N e i j :
  w (loop_entry M N e) i j = w (initialize M N (main_setup e)) i j.
Proof. reflexivity. Qed.

(** C10. After initialisation and after any number of sweeps, every cell
    of the plate lies between 0 and 100, the least and the greatest of the
    four boundary values.  The cells that are not interior keep the value
    they had after initialisation; the initial interior value [mean] lies
    between 0 and 100 as well.  The same holds for the grid with which
    [main] ends. *)
Theorem values_in_range (M N : nat) (e : Q) (i j k : nat) :
  (3 <= M)%nat -> (3 <= N)%nat -> (i < M)%nat -> (j < N)%nat ->
  let st0 := loop_entry M N e in
  let stk := Nat.iter k (sweep M N) st0 in
  0 <= w st0 i j <= 100
  /\ 0 <= w stk i j <= 100
  /\ (~ interior M N i j -> w stk i j = w st0 i j)
  /\ 0 <= mean st0 <= 100
  /\ (forall fuel name code st',
        main M N fuel (Some e) (Some name) = Some (code, st') ->
        0 <= w st' i j <= 100).
Proof.
  intros HM HN Hi Hj st0 stk. subst st0 stk.
  assert (R0 : in_range M N 0 100 (w (loop_entry M N e))).
  { intros a b Ha Hb. rewrite loop_entry_w. apply initialize_range; lia. }
  split; [apply R0; assumption|].
  split; [apply (sweeps_range M N 0 100 _ k R0); assumption|].
  split; [apply sweeps_boundary|].
  split; [apply (initialize_mean_range M N); lia|].
  intros fuel name code st' H. rewrite main_run in H.
  destruct (getHeat_loop M N fuel (loop_entry M N e)) as [s|] eqn:G; [|discriminate].
  inversion H; subst. apply getHeat_loop_sweeps in G. destruct G as [n [-> _]].
  apply (sweeps_range M N 0 100 _ n R0); assumption.
Qed.

Lemma values_in_range_witness :
  0 <= w (Nat.iter 2 (sweep 4 4) (loop_entry 4 4 1)) 1%nat 2%nat <= 100.
Proof.
  assert (H3 : (3 <= 4)%nat) by lia.
  assert (Hi : (1 < 4)%nat) by lia.
  assert (Hj : (2 < 4)%nat) by lia.
  exact (proj1 (proj2 (values_in_range 4 4 1 1 2 2 H3 H3 Hi Hj))).
Defined.

(** * The grid at exit *)

Section ExitFacts.

Variables M N : nat.

Lemma Qabs_self_diff x : Qabs (x - x) == 0.
Proof.
  assert (E : x - x == 0) by ring. rewrite E. reflexivity.
Qed.

(** No cell changes by more than the [diff] of the sweep. *)
Lemma change_bound g a b :
  Qabs (jacobi M N g a b - g a b) <= max_change g (interior_cells M N) 0.
Proof.
  destruct (interior_dec M N a b) as [I|I].
  - rewrite jacobi_interior by exact I.
    apply (max_change_ge_each g (interior_cells M N) 0 (a, b)).
    apply in_interior_cells, I.
  - rewrite jacobi_other by exact I. rewrite Qabs_self_diff.
    apply max_change_ge_start.
Qed.

(** After a Jacobi step with largest change [d], every interior cell is
    within [d] of the average of its neighbours in the new grid. *)
Lemma residual_bound g g' i j :
  (forall a b, g' a b = jacobi M N g a b) ->
  interior M N i j ->
  Qabs (g' i j - neighbour_avg g' (i, j)) <= max_change g (interior_cells M N) 0.
Proof.
  intros E I. set (d := max_change g (interior_cells M N) 0).
  assert (B : forall a b, - d <= g' a b - g a b <= d).
  { intros a b. apply Qabs_Qle_condition. rewrite E. apply change_bound. }
  rewrite (E i j), jacobi_interior by exact I.
  unfold neighbour_avg. cbn [fst snd].
  pose proof (B (i - 1)%nat j) as B1. pose proof (B (i + 1)%nat j) as B2.
  pose proof (B i (j - 1)%nat) as B3. pose proof (B i (j + 1)%nat) as B4.
  apply Qabs_Qle_condition. split.
  - apply Qle_minus_iff.
    setoid_replace
      ((g (i - 1)%nat j + g (i + 1)%nat j + g i (j - 1)%nat + g i (j + 1)%nat) / 4
       - (g' (i - 1)%nat j + g' (i + 1)%nat j + g' i (j - 1)%nat + g' i (j + 1)%nat) / 4
       + - - d)
      with (((d - (g' (i - 1)%nat j - g (i - 1)%nat j))
             + (d - (g' (i + 1)%nat j - g (i + 1)%nat j))
             + (d - (g' i (j - 1)%nat - g i (j - 1)%nat))
             + (d - (g' i (j + 1)%nat - g i (j + 1)%nat))) / 4)
      by field.
    apply Qle_shift_div_l; lra.
  - apply Qle_minus_iff.
    setoid_replace
      (d + - ((g (i - 1)%nat j + g (i + 1)%nat j + g i (j - 1)%nat + g i (j + 1)%nat) / 4
       - (g' (i - 1)%nat j + g' (i + 1)%nat j + g' i (j - 1)%nat + g' i (j + 1)%nat) / 4))
      with (((d + (g' (i - 1)%nat j - g (i - 1)%nat j))
             + (d + (g' (i + 1)%nat j - g (i + 1)%nat j))
             + (d + (g' i (j - 1)%nat - g i (j - 1)%nat))
             + (d + (g' i (j + 1)%nat - g i (j + 1)%nat))) / 4)
      by field.
    apply Qle_shift_div_l; lra.
Qed.

(** A run that ends, ends at a test that found [diff < epsilon]; the
    state there is the start state or comes out of a sweep. *)
Lemma getHeat_loop_exit : forall fuel st st',
  getHeat_loop M N fuel st = Some st' ->
  (st' = st \/ exists s, st' = sweep M N s)
  /\ diff st' < epsilon st' /\ epsilon st' = epsilon st.
Proof.
  induction fuel as [|fuel IH]; intros st st' H; [discriminate|].
  simpl in H. destruct (Qle_bool (epsilon st) (diff st)) eqn:C.
  - apply IH in H. destruct H as [H1 [H2 H3]].
    rewrite sweep_epsilon in H3. split; [|split; assumption].
    right. destruct H1 as [->|H1]; [exists st; reflexivity | exact H1].
  - inversion H; subst. split; [left; reflexivity|].
    split; [apply Qle_bool_false, C | reflexivity].
Qed.

End ExitFacts.

(** C5, amended.  When the run ends, the grid that is returned comes out
    of a last sweep: every interior cell holds the average of its four
    neighbours in the grid before that sweep and differs from its own
    value in that grid by less than [epsilon].  In exact arithmetic it
    follows that every interior cell is within [epsilon] of the average of
    its four neighbours in the returned grid. *)
Theorem exit_residual (M N : nat) (e : Q) (fuel : nat) (name : string)
    (code : Z) (st' : state) (i j : nat) :
  main M N fuel (Some e) (Some name) = Some (code, st') ->
  interior M N i j ->
  let avg :=
    (w st' (i - 1)%nat j + w st' (i + 1)%nat j
     + w st' i (j - 1)%nat + w st' i (j + 1)%nat) / 4 in
  Qabs (w st' i j - avg) < e
  /\ Qabs (w st' i j - avg) <= e
  /\ exists s,
       st' = sweep M N s
       /\ w st' i j
          = (w s (i - 1)%nat j + w s (i + 1)%nat j
             + w s i (j - 1)%nat + w s i (j + 1)%nat) / 4
       /\ Qabs (w st' i j - w s i j) < e.
Proof.
  intros H I avg. rewrite main_run in H.
  destruct (getHeat_loop M N fuel (loop_entry M N e)) as [s|] eqn:G; [|discriminate].
  inversion H; subst code st'. clear H.
  apply getHeat_loop_exit in G. destruct G as [G1 [G2 G3]].
  rewrite loop_entry_epsilon in G3.
  assert (S0 : exists s0, s = sweep M N s0).
  { destruct G1 as [->|G1]; [|exact G1].
    rewrite loop_entry_diff, loop_entry_epsilon in G2.
    exfalso. apply (Qlt_irrefl e), G2. }
  destruct S0 as [s0 ->]. rewrite G3 in G2. rewrite sweep_diff in G2.
  assert (L : Qabs (w (sweep M N s0) i j - avg) < e).
  { eapply Qle_lt_trans; [|exact G2].
    apply (residual_bound M N (w s0) (w (sweep M N s0)) i j);
      [intros a b; apply sweep_w | exact I]. }
  split; [exact L|]. split; [apply Qlt_le_weak, L|].
  exists s0. split; [reflexivity|]. split.
  - rewrite sweep_w, jacobi_interior by exact I. reflexivity.
  - eapply Qle_lt_trans; [|exact G2]. rewrite sweep_w. apply change_bound.
Qed.

Lemma exit_residual_witness :
  let st' := Nat.iter 2 (sweep 3 3) (loop_entry 3 3 1) in
  Qabs (w st' 1%nat 1%nat
        - (w st' 0%nat 1%nat + w st' 2%nat 1%nat + w st' 1%nat 0%nat + w st' 1%nat 2%nat) / 4)
  < 1.
Proof.
  intros st'.
  assert (H : main 3 3 3 (Some 1) (Some "out"%string) = Some (0%Z, st'))
    by (vm_compute; reflexivity).
  assert (I : interior 3 3 1 1) by (unfold interior; simpl; lia).
  exact (proj1 (exit_residual 3 3 1 3 "out"%string 0%Z st' 1 1 H I)).
Defined.

(** * Tolerances that are never met *)



(** The grid with which the loop starts does not depend on the tolerance. *)
Lemma loop_entry_w_eq M N e e' : w (loop_entry M N e) = w (loop_entry M N e').
Proof.
  unfold loop_entry, initialize. cbn [w set_iterations set_iterations_print].
  rewrite !setAverageBoundary_eq, !setBoundaryValue_eq. reflexivity.
Qed.

(** * The smallest plate *)

(** C9, as stated, fails: on the 3 by 3 plate the interior cell does get
    the average of its four boundary neighbours in the first sweep, but
    the first sweep does not end with [diff == 0]. *)
Lemma min_grid_not_immediate :
  ~ (let st0 := loop_entry 3 3 1 in
     let st1 := sweep 3 3 st0 in
     w st1 1%nat 1%nat
     == (w st0 0%nat 1%nat + w st0 2%nat 1%nat + w st0 1%nat 0%nat + w st0 1%nat 2%nat) / 4
     /\ diff st1 == 0).
Proof.
  intros [_ H]. vm_compute in H. discriminate H.
Qed.

(** C9, amended.  On the 3 by 3 plate the interior cell starts at the mean
    of the eight boundary cells, 62.5; the first sweep sets it to the
    average of its four boundary neighbours, 75, and ends with
    [diff == 12.5]; the second sweep leaves the cell at 75 and ends with
    [diff == 0].  So the run ends after the first sweep when
    [12.5 < epsilon], and after the second sweep when
    [0 < epsilon < 12.5]. *)
Theorem min_grid_two_sweeps (e : Q) (fuel : nat) :
  let st0 := loop_entry 3 3 e in
  let st1 := sweep 3 3 st0 in
  let st2 := sweep 3 3 st1 in
  interior_cells 3 3 = [(1%nat, 1%nat)]
  /\ w st0 1%nat 1%nat == 125 # 2
  /\ w st1 1%nat 1%nat
     == (w st0 0%nat 1%nat + w st0 2%nat 1%nat + w st0 1%nat 0%nat + w st0 1%nat 2%nat) / 4
  /\ w st1 1%nat 1%nat == 75
  /\ diff st1 == 25 # 2
  /\ w st2 1%nat 1%nat == 75
  /\ diff st2 == 0
  /\ (25 # 2 < e -> getHeat_loop 3 3 (S (S fuel)) st0 = Some st1)
  /\ (0 < e -> e < 25 # 2 -> getHeat_loop 3 3 (S (S (S fuel))) st0 = Some st2).
Proof.
  intros st0 st1 st2.
  assert (D1 : diff st1 == 25 # 2).
  { subst st1 st0. rewrite sweep_diff, (loop_entry_w_eq 3 3 e 0).
    vm_compute. reflexivity. }
  split; [reflexivity|].
  split; [subst st0; rewrite loop_entry_w; vm_compute; reflexivity|].
  split.
  { subst st1. rewrite sweep_w. reflexivity. }
  split.
  { subst st1 st0. rewrite sweep_w. vm_compute. reflexivity. }
  split; [exact D1|].
  split.
  { subst st2 st1 st0. rewrite sweep_w. unfold jacobi, neighbour_avg.
    cbn [fst snd Nat.leb Nat.sub Nat.add andb]. rewrite !sweep_w.
    vm_compute. reflexivity. }
  assert (D2 : diff st2 == 0).
  { subst st2. rewrite sweep_diff.
    assert (E : forall c, In c (interior_cells 3 3) ->
              neighbour_avg (w st1) c - at_cell (w st1) c == 0).
    { intros c [<-|[]]. subst st1 st0. unfold neighbour_avg, at_cell.
      cbn [fst snd]. rewrite !sweep_w. vm_compute. reflexivity. }
    change (interior_cells 3 3) with [(1%nat, 1%nat)] in *.
    unfold max_change, running_max. cbn [fold_left].
    destruct (bump_cases 0 (Qabs (neighbour_avg (w st1) (1%nat, 1%nat)
                                  - at_cell (w st1) (1%nat, 1%nat)))) as [[B L]|[B _]].
    - exfalso. rewrite (E (1%nat, 1%nat) (or_introl eq_refl)) in L.
      vm_compute in L. discriminate L.
    - rewrite B. reflexivity. }
  split; [exact D2|].
  assert (C0 : epsilon st0 <= diff st0)
    by (subst st0; rewrite loop_entry_epsilon, loop_entry_diff; apply Qle_refl).
  assert (E1 : epsilon st1 = e).
  { subst st1 st0. rewrite sweep_epsilon. apply loop_entry_epsilon. }
  assert (E2 : epsilon st2 = e).
  { subst st2. rewrite sweep_epsilon. exact E1. }
  split.
  - intros H. rewrite getHeat_loop_continue by exact C0. fold st1.
    apply getHeat_loop_stop. rewrite E1, D1. exact H.
  - intros H0 H. rewrite getHeat_loop_continue by exact C0. fold st1.
    rewrite getHeat_loop_continue
      by (rewrite E1, D1; apply Qlt_le_weak, H).
    fold st2. apply getHeat_loop_stop. rewrite E2, D2. exact H0.
Qed.

Lemma min_grid_two_sweeps_witness :
  getHeat_loop 3 3 3 (loop_entry 3 3 1)
  = Some (sweep 3 3 (sweep 3 3 (loop_entry 3 3 1))).
Proof.
  assert (H0 : 0 < 1) by reflexivity.
  assert (H : 1 < 25 # 2) by reflexivity.
  exact (proj2 (proj2 (proj2 (proj2 (proj2 (proj2 (proj2 (proj2
    (min_grid_two_sweeps 1 0)))))))) H0 H).
Defined.

(** * A sweep that ends with [diff] equal to the tolerance *)

(** When a sweep has ended with [diff] equal to [epsilon], the test
    [epsilon <= diff] passes and one more sweep is made. *)
Lemma equal_diff_continues M N fuel st :
  diff st == epsilon st ->
  getHeat_loop M N (S fuel) st = getHeat_loop M N fuel (sweep M N st).
Proof.
  intros E. apply getHeat_loop_continue. rewrite E. apply Qle_refl.
Qed.

(** On the 3 by 3 plate with tolerance 12.5 the run makes two sweeps
    although the first one ends with [diff == epsilon]. *)
Lemma equal_diff_small_plate :
  diff (sweep 3 3 (loop_entry 3 3 (25 # 2))) == 25 # 2
  /\ main 3 3 2 (Some (25 # 2)) (Some "out"%string) = None
  /\ option_map (fun r => iterations (snd r))
       (main 3 3 3 (Some (25 # 2)) (Some "out"%string)) = Some 2%Z.
Proof. vm_compute. repeat split. Qed.

(** * Termination for a positive tolerance *)

Lemma scale_range D r : 0 <= D -> 0 <= r <= 1 -> 0 <= D * r <= D.
Proof.
  intros HD [H0 H1]. split.
  - apply Qmult_le_0_compat; assumption.
  - rewrite <- (Qmult_1_r D) at 2. rewrite (Qmult_comm D r), (Qmult_comm D 1).
    apply Qmult_le_compat_r; assumption.
Qed.

Lemma scale_le D a b : 0 <= D -> a <= b -> D * a <= D * b.
Proof.
  intros HD H. rewrite (Qmult_comm D a), (Qmult_comm D b).
  apply Qmult_le_compat_r; assumption.
Qed.

Lemma shrink_range i : 0 <= shrink i < 1.
Proof.
  induction i as [|i IH]; simpl; lra.
Qed.

Lemma shrink_mono i k : (i <= k)%nat -> shrink i <= shrink k.
Proof.
  induction 1 as [|k H IH]; [apply Qle_refl|].
  pose proof (shrink_range k). simpl. lra.
Qed.

Lemma row_bound_range t i : 0 <= row_bound t i <= 1.
Proof.
  unfold row_bound. destruct (i <=? t)%nat; [|lra].
  pose proof (shrink_range i). lra.
Qed.

Lemma geometric_nonneg r n D : 0 <= r -> 0 <= D -> 0 <= geometric r n D.
Proof.
  intros Hr HD. induction n as [|n IH]; simpl; [exact HD|].
  apply Qmult_le_0_compat; assumption.
Qed.

Lemma geometric_decay r D n :
  0 <= r -> r <= 1 -> 0 <= D ->
  geometric r n D * (1 + inject_Z (Z.of_nat n) * (1 - r)) <= D.
Proof.
  intros Hr Hr1 HD. induction n as [|n IH].
  - simpl. ring_simplify. apply Qle_refl.
  - pose proof (geometric_nonneg r n D Hr HD) as G.
    rewrite Nat2Z.inj_succ. unfold Z.succ. rewrite inject_Z_plus.
    set (q := inject_Z (Z.of_nat n)) in *.
    assert (Hq : 0 <= q).
    { subst q. change 0 with (inject_Z 0). rewrite <- Zle_Qle. lia. }
    simpl geometric. set (g := geometric r n D) in *.
    assert (E : g * r * (1 + (q + inject_Z 1) * (1 - r))
                == g * (1 + q * (1 - r)) - g * ((q + 1) * ((1 - r) * (1 - r)))).
    { change (inject_Z 1) with 1. ring. }
    assert (P : 0 <= g * ((q + 1) * ((1 - r) * (1 - r)))).
    { apply Qmult_le_0_compat; [exact G|].
      apply Qmult_le_0_compat; [lra|].
      apply Qmult_le_0_compat; lra. }
    rewrite E. lra.
Qed.

Lemma nat_above (q : Q) : exists n : nat, q < inject_Z (Z.of_nat n).
Proof.
  exists (Z.to_nat (Qfloor q + 1)).
  pose proof (Qlt_floor q) as H.
  destruct (Z_le_gt_dec 0 (Qfloor q + 1)) as [P|P].
  - rewrite Z2Nat.id by exact P. exact H.
  - eapply Qlt_le_trans; [exact H|]. rewrite <- Zle_Qle. lia.
Qed.

Lemma geometric_small r D eps :
  0 <= r -> r < 1 -> 0 <= D -> 0 < eps -> exists n, geometric r n D < eps.
Proof.
  intros Hr Hr1 HD He.
  assert (Hd : 0 < eps * (1 - r)) by (apply Qmult_lt_0_compat; lra).
  destruct (nat_above (D / (eps * (1 - r)))) as [n Hn].
  exists n.
  pose proof (geometric_decay r D n Hr (Qlt_le_weak _ _ Hr1) HD) as G.
  set (q := inject_Z (Z.of_nat n)) in *.
  assert (Hq : 0 <= q).
  { subst q. change 0 with (inject_Z 0). rewrite <- Zle_Qle. lia. }
  assert (L : D < q * (eps * (1 - r))).
  { apply (Qmult_lt_compat_r _ _ _ Hd) in Hn.
    setoid_replace (D / (eps * (1 - r)) * (eps * (1 - r))) with D in Hn
      by (field; lra).
    exact Hn. }
  assert (K : 0 < 1 + q * (1 - r)).
  { assert (0 <= q * (1 - r)) by (apply Qmult_le_0_compat; lra). lra. }
  apply Qnot_le_lt. intros C.
  assert (X : eps * (1 + q * (1 - r)) <= geometric r n D * (1 + q * (1 - r))).
  { apply Qmult_le_compat_r; [exact C | apply Qlt_le_weak, K]. }
  assert (Y : eps * (1 + q * (1 - r)) == eps + q * (eps * (1 - r))) by ring.
  rewrite Y in X. lra.
Qed.

Section Contraction.

Variables M N : nat.
Variable st : state.

Lemma grid_after_step k i j :
  grid_after M N st (S k) i j = jacobi M N (grid_after M N st k) i j.
Proof. unfold grid_after. simpl. apply sweep_w. Qed.

(** Cells that are not interior do not change. *)
Lemma change_outside k i j : ~ interior M N i j -> change M N st k i j == 0.
Proof.
  intros I. unfold change. rewrite grid_after_step, jacobi_other by exact I. ring.
Qed.

(** The change of an interior cell in a sweep is the average of the
    changes of its neighbours in the sweep before. *)
Lemma change_step k i j :
  interior M N i j ->
  change M N st (S k) i j
  == (change M N st k (i - 1)%nat j + change M N st k (i + 1)%nat j
      + change M N st k i (j - 1)%nat + change M N st k i (j + 1)%nat) * (1 # 4).
Proof.
  intros I. unfold change.
  rewrite (grid_after_step (S k) i j), (grid_after_step k i j).
  rewrite !jacobi_interior by exact I.
  unfold neighbour_avg. cbn [fst snd]. field.
Qed.

(** The cold row spreads: [t] sweeps after all changes are within [D],
    the changes in row [i <= t] are within [D * (1 - (1/4)^i)]. *)
Lemma rows_contract D k :
  0 <= D ->
  (forall i j, within D (change M N st k i j)) ->
  forall t i j, within (D * row_bound t i) (change M N st (k + t) i j).
Proof.
  intros HD H0. induction t as [|t IH]; intros i j.
  - rewrite Nat.add_0_r. unfold row_bound.
    destruct i as [|i]; cbn [Nat.leb].
    + assert (Z0 : change M N st k 0%nat j == 0)
        by (apply change_outside; unfold interior; lia).
      unfold within. simpl shrink. rewrite Z0. lra.
    + specialize (H0 (S i) j). unfold within in *. lra.
  - rewrite Nat.add_succ_r.
    pose proof (scale_range D _ HD (row_bound_range (S t) i)) as [R0 R1].
    destruct (interior_dec M N i j) as [I|I].
    + pose proof (change_step (k + t) i j I) as E.
      pose proof (IH (i - 1)%nat j) as B1. pose proof (IH (i + 1)%nat j) as B2.
      pose proof (IH i (j - 1)%nat) as B3. pose proof (IH i (j + 1)%nat) as B4.
      pose proof (scale_range D _ HD (row_bound_range t (i + 1))) as [_ S2].
      pose proof (scale_range D _ HD (row_bound_range t i)) as [_ S3].
      unfold within in *. rewrite E.
      assert (K : (D * row_bound t (i - 1) + 3 * D) * (1 # 4)
                  <= D * row_bound (S t) i).
      { destruct I as [[I1 _] _]. unfold row_bound.
        destruct (Nat.leb_spec i (S t)) as [L|L].
        - destruct (Nat.leb_spec (i - 1) t) as [L'|L']; [|lia].
          replace i with (S (i - 1)) at 2 by lia. simpl shrink. lra.
        - pose proof (scale_range D _ HD (row_bound_range t (i - 1))) as [_ S1].
          unfold row_bound in S1. lra. }
      lra.
    + unfold within. rewrite (change_outside (S (k + t)) i j I). lra.
Qed.

(** After [M] sweeps every row has been reached. *)
Lemma full_contract D k :
  0 <= D ->
  (forall i j, within D (change M N st k i j)) ->
  forall i j, within (D * shrink M) (change M N st (k + M) i j).
Proof.
  intros HD H0 i j.
  pose proof (shrink_range M) as [SM _].
  assert (P : 0 <= D * shrink M) by (apply Qmult_le_0_compat; assumption).
  destruct (interior_dec M N i j) as [I|I].
  - pose proof (rows_contract D k HD H0 M i j) as B.
    assert (L : D * row_bound M i <= D * shrink M).
    { apply scale_le; [exact HD|]. unfold row_bound.
      destruct I as [[_ I2] _].
      destruct (Nat.leb_spec i M) as [L|L]; [|lia].
      apply shrink_mono, L. }
    unfold within in *. lra.
  - unfold within. rewrite (change_outside (k + M) i j I). lra.
Qed.

Lemma geometric_contract D :
  0 <= D ->
  (forall i j, within D (change M N st 0 i j)) ->
  forall n i j, within (geometric (shrink M) n D) (change M N st (n * M) i j).
Proof.
  intros HD H0. pose proof (shrink_range M) as [SM _].
  induction n as [|n IH]; intros i j; [apply H0|].
  simpl geometric. replace (S n * M)%nat with (n * M + M)%nat by lia.
  apply full_contract; [apply geometric_nonneg; assumption | exact IH].
Qed.

Lemma first_change_bound i j :
  within (max_change (w st) (interior_cells M N) 0) (change M N st 0 i j).
Proof.
  unfold within, change. rewrite grid_after_step. unfold grid_after. simpl Nat.iter.
  apply Qabs_Qle_condition, change_bound.
Qed.

(** The [diff] of sweep [k + 1] is bounded by any bound on the changes
    that this sweep makes. *)
Lemma diff_le_bound k b :
  0 <= b ->
  (forall i j, within b (change M N st k i j)) ->
  diff (Nat.iter (S k) (sweep M N) st) <= b.
Proof.
  intros Hb H. simpl Nat.iter. rewrite sweep_diff.
  apply max_change_le_bound; [exact Hb|].
  intros [a c] I. apply in_interior_cells in I.
  apply Qabs_Qle_condition. specialize (H a c). unfold within, change in H.
  rewrite grid_after_step, jacobi_interior in H by exact I. exact H.
Qed.

(** Some sweep ends with [diff] below any positive tolerance. *)
Lemma diff_falls_below eps :
  0 < eps -> exists k, diff (Nat.iter (S k) (sweep M N) st) < eps.
Proof.
  intros He. set (D := max_change (w st) (interior_cells M N) 0).
  assert (HD : 0 <= D) by apply max_change_ge_start.
  pose proof (shrink_range M) as [S0 S1].
  destruct (geometric_small (shrink M) D eps S0 S1 HD He) as [n Hn].
  exists (n * M)%nat. eapply Qle_lt_trans; [|exact Hn].
  apply diff_le_bound; [apply geometric_nonneg; assumption|].
  apply geometric_contract; [exact HD | apply first_change_bound].
Qed.

End Contraction.

Lemma sweeps_epsilon M N st k : epsilon (Nat.iter k (sweep M N) st) = epsilon st.
Proof.
  induction k as [|k IH]; [reflexivity|]. simpl. rewrite sweep_epsilon. exact IH.
Qed.






(** * A negative tolerance *)






(** * The first sweep on the plate of the source *)

Lemma sum_app (f : cell -> Q) l1 l2 :
  fold_right Qplus 0 (map f (l1 ++ l2))
  == fold_right Qplus 0 (map f l1) + fold_right Qplus 0 (map f l2).
Proof.
  induction l1 as [|c l1 IH]; simpl; [ring|]. rewrite IH. ring.
Qed.

Lemma sum_const (f : cell -> Q) v l :
  (forall c, In c l -> f c = v) ->
  fold_right Qplus 0 (map f l) == inject_Z (Z.of_nat (length l)) * v.
Proof.
  intros H. destruct (sum_bounds f v v l) as [L U].
  - intros c I. rewrite (H c I). split; apply Qle_refl.
  - apply Qle_antisym; assumption.
Qed.

Section FirstSweep.

Variables M N : nat.
Variable st : state.
Hypothesis HM : (4 <= M)%nat.
Hypothesis HN : (5 <= N)%nat.

(** With three edges at 100 and one at 0, [mean] is
    [(200 (M - 2) + 100 N) / (2 M + 2 N - 4)]. *)
Lemma initialize_mean_value :
  mean (initialize M N st)
  == (200 * inject_Z (Z.of_nat (M - 2)) + 100 * inject_Z (Z.of_nat N))
     / inject_Z (Z.of_nat (2 * M + 2 * N - 4)).
Proof.
  rewrite initialize_mean, sum_fold_left, boundary_count by lia.
  apply Qdiv_comp; [|reflexivity].
  unfold boundary_cells. rewrite !sum_app.
  rewrite (sum_const _ 100 (col_cells 1 (M - 1) 0)).
  2:{ intros [a b] I. apply in_col_cells in I. destruct I as [I ->].
      unfold at_cell; cbn [fst snd]. apply stamped_west. lia. }
  rewrite (sum_const _ 100 (col_cells 1 (M - 1) (N - 1))).
  2:{ intros [a b] I. apply in_col_cells in I. destruct I as [I ->].
      unfold at_cell; cbn [fst snd]. apply stamped_east. lia. }
  rewrite (sum_const _ 100 (row_cells (M - 1) 0 N)).
  2:{ intros [a b] I. apply in_row_cells in I. destruct I as [-> I].
      unfold at_cell; cbn [fst snd]. apply stamped_south; lia. }
  rewrite (sum_const _ 0 (row_cells 0 0 N)).
  2:{ intros [a b] I. apply in_row_cells in I. destruct I as [-> I].
      unfold at_cell; cbn [fst snd]. apply stamped_north; lia. }
  unfold col_cells, row_cells. rewrite !length_map, !length_seq.
  replace (M - 1 - 1)%nat with (M - 2)%nat by lia.
  replace (N - 0)%nat with N by lia. ring.
Qed.

(** The initial grid, cell by cell. *)
Lemma initial_value x y :
  (x < M)%nat -> (y < N)%nat ->
  let g := w (initialize M N st) in
  (interior M N x y /\ g x y = mean (initialize M N st))
  \/ (x = 0%nat /\ g x y = 0)
  \/ (x <> 0%nat /\ ~ interior M N x y /\ g x y = 100).
Proof.
  intros Hx Hy g. subst g.
  destruct (interior_dec M N x y) as [I|I].
  - left. split; [exact I | apply initialize_interior, I].
  - right. rewrite initialize_other by exact I.
    destruct (Nat.eq_dec x 0) as [->|X0]; [left; split; [reflexivity|]|right].
    + apply stamped_north, Hy.
    + split; [exact X0|]. split; [exact I|].
      destruct (Nat.eq_dec x (M - 1)) as [->|X1]; [apply stamped_south; lia|].
      destruct (Nat.eq_dec y 0) as [->|Y0]; [apply stamped_west; lia|].
      assert (y = (N - 1)%nat) as -> by (unfold interior in I; lia).
      apply stamped_east. lia.
Qed.

Hypothesis Hmean : 200 # 3 <= mean (initialize M N st) <= 100.

(** The largest change of the first sweep is a quarter of [mean]: it is
    made in the row next to the cold edge. *)
Lemma first_sweep_diff :
  max_change (w (initialize M N st)) (interior_cells M N) 0
  == mean (initialize M N st) * (1 # 4).
Proof.
  set (m := mean (initialize M N st)) in *.
  set (g := w (initialize M N st)).
  apply Qle_antisym.
  - apply max_change_le_bound; [lra|].
    intros [a b] I. apply in_interior_cells in I.
    assert (Ha : (a < M)%nat /\ (b < N)%nat) by (unfold interior in I; lia).
    unfold neighbour_avg, at_cell. cbn [fst snd].
    destruct (initial_value a b) as [[_ E0]|[[Z0 _]|[_ [NI _]]]];
      try lia; try contradiction;
      [|exfalso; unfold interior in I; lia].
    destruct (initial_value (a - 1) b) as [[I1 E1]|[[Z1 E1]|[NZ1 [NI1 E1]]]];
      try (unfold interior in I; lia);
    destruct (initial_value (a + 1) b) as [[I2 E2]|[[Z2 E2]|[NZ2 [NI2 E2]]]];
      try (unfold interior in I; lia);
    destruct (initial_value a (b - 1)) as [[I3 E3]|[[Z3 E3]|[NZ3 [NI3 E3]]]];
      try (unfold interior in I; lia);
    destruct (initial_value a (b + 1)) as [[I4 E4]|[[Z4 E4]|[NZ4 [NI4 E4]]]];
      try (unfold interior in I; lia);
    fold g in E0, E1, E2, E3, E4; fold m in E0, E1, E2, E3, E4;
    rewrite E0, E1, E2, E3, E4;
    try (exfalso; unfold interior in *; lia);
    apply Qabs_Qle_condition; unfold Qdiv; change (/ 4) with (1 # 4); lra.
  - eapply Qle_trans;
      [|apply (max_change_ge_each g (interior_cells M N) 0 (1%nat, 2%nat));
        apply in_interior_cells; unfold interior; lia].
    unfold neighbour_avg, at_cell. cbn [fst snd Nat.sub Nat.add].
    assert (E0 : g 1%nat 2%nat = m) by (apply initialize_interior; unfold interior; lia).
    assert (E1 : g 0%nat 2%nat = 0).
    { unfold g. rewrite initialize_other by (unfold interior; lia).
      apply stamped_north. lia. }
    assert (E2 : g 2%nat 2%nat = m) by (apply initialize_interior; unfold interior; lia).
    assert (E3 : g 1%nat 1%nat = m) by (apply initialize_interior; unfold interior; lia).
    assert (E4 : g 1%nat 3%nat = m) by (apply initialize_interior; unfold interior; lia).
    rewrite E0, E1, E2, E3, E4.
    rewrite <- Qabs_opp. eapply Qle_trans; [|apply Qle_Qabs].
    unfold Qdiv. change (/ 4) with (1 # 4). lra.
Qed.

End FirstSweep.

Lemma first_sweep_diff_entry M N e :
  (4 <= M)%nat -> (5 <= N)%nat ->
  200 # 3 <= mean (initialize M N (main_setup e)) <= 100 ->
  diff (sweep M N (loop_entry M N e))
  == mean (initialize M N (main_setup e)) * (1 # 4).
Proof.
  intros HM HN Hm. rewrite sweep_diff.
  apply (first_sweep_diff M N (main_setup e) HM HN Hm).
Qed.

Lemma reference_plate_size : (4 <= M_ref)%nat /\ (5 <= N_ref)%nat.
Proof. split; apply Nat.leb_le; reflexivity. Qed.

(** On the plate of the source [mean] is 74900/999, about 74.975. *)
Lemma reference_mean e :
  mean (initialize M_ref N_ref (main_setup e)) == 74900 # 999.
Proof.
  destruct reference_plate_size as [HM HN].
  rewrite (initialize_mean_value M_ref N_ref (main_setup e) HM HN).
  vm_compute. reflexivity.
Qed.

(** The first sweep on the plate of the source ends with
    [diff == 18725/999], about 18.744. *)
Lemma reference_first_diff e :
  diff (sweep M_ref N_ref (loop_entry M_ref N_ref e)) == 18725 # 999.
Proof.
  destruct reference_plate_size as [HM HN].
  rewrite first_sweep_diff_entry; [| exact HM | exact HN |].
  - rewrite reference_mean. reflexivity.
  - rewrite reference_mean. split; [unfold Qle; simpl; lia | unfold Qle; simpl; lia].
Qed.

(** C6 on the program of the source.  With the tolerance 18725/999 the
    first sweep ends with [diff] equal to [epsilon]; the test
    [epsilon <= diff] passes once more and a second sweep is made, so the
    iteration does not end at the sweep whose change is equal to the
    tolerance: after two tests of the loop condition the run is still
    going on. *)
Theorem equal_diff_goes_on (fuel : nat) (name : string) :
  let e := 18725 # 999 in
  let st1 := sweep M_ref N_ref (loop_entry M_ref N_ref e) in
  diff st1 == epsilon st1
  /\ getHeat_loop M_ref N_ref (S (S fuel)) (loop_entry M_ref N_ref e)
     = getHeat_loop M_ref N_ref fuel (sweep M_ref N_ref st1)
  /\ main M_ref N_ref 2 (Some e) (Some name) = None.
Proof.
  intros e st1.
  assert (E : diff st1 == epsilon st1).
  { subst st1. rewrite sweep_epsilon, loop_entry_epsilon.
    apply reference_first_diff. }
  assert (E0 : diff (loop_entry M_ref N_ref e) == epsilon (loop_entry M_ref N_ref e)).
  { rewrite loop_entry_epsilon, loop_entry_diff. reflexivity. }
  split; [exact E|]. split.
  - rewrite (equal_diff_continues M_ref N_ref (S fuel) _ E0).
    fold st1. apply equal_diff_continues, E.
  - rewrite main_run.
    rewrite (equal_diff_continues M_ref N_ref 1 _ E0). fold st1.
    rewrite (equal_diff_continues M_ref N_ref 0 _ E). reflexivity.
Qed.


(** * The schedule of the progress lines *)

Lemma sweep_iterations_print M N st :
  iterations_print (sweep M N st)
  = if (iterations st + 1 =? iterations_print st)%Z
    then (2 * iterations_print st)%Z
    else iterations_print st.
Proof.
  unfold sweep, count_iteration. rewrite relax_eq, save_old_eq.
  cbn [iterations iterations_print set_iterations set_diff set_w set_u].
  destruct (Z.eqb _ _); reflexivity.
Qed.

Lemma sweep_print_eq M N st :
  sweep_print M N st
  = if (iterations st + 1 =? iterations_print st)%Z
    then [((iterations st + 1)%Z, diff (sweep M N st))]
    else [].
Proof.
  unfold sweep_print, sweep. rewrite count_iteration_diff.
  rewrite relax_eq, save_old_eq.
  cbn [iterations iterations_print diff set_iterations set_diff set_w set_u].
  reflexivity.
Qed.

(** After [k] sweeps the counter is [k] and [iterations_print] is a power
    of two above [k] and at most [2 k]. *)
Lemma counters_invariant M N st k :
  iterations st = 0%Z -> iterations_print st = 1%Z ->
  let sk := Nat.iter k (sweep M N) st in
  iterations sk = Z.of_nat k
  /\ exists p, (0 <= p)%Z
       /\ iterations_print sk = (2 ^ p)%Z
       /\ (Z.of_nat k < 2 ^ p)%Z
       /\ ((k = 0%nat /\ p = 0%Z) \/ (1 <= p /\ 2 ^ (p - 1) <= Z.of_nat k)%Z).
Proof.
  intros H0 H1. induction k as [|k [IHi [p [Hp [IHp [Hlt Hge]]]]]].
  - simpl. split; [exact H0|]. exists 0%Z. rewrite H1.
    split; [lia|]. split; [reflexivity|]. split; [reflexivity|].
    left. split; reflexivity.
  - cbn zeta. simpl Nat.iter. rewrite sweep_iterations, sweep_iterations_print.
    rewrite IHi, IHp. split; [lia|].
    destruct (Z.eqb_spec (Z.of_nat k + 1) (2 ^ p)) as [E|E].
    + exists (p + 1)%Z. rewrite Z.pow_add_r by lia. rewrite Z.pow_1_r.
      replace (p + 1 - 1)%Z with p by lia.
      split; [lia|]. split; [lia|]. split; [lia|]. right. lia.
    + exists p.
      split; [lia|]. split; [reflexivity|]. split; [lia|]. right.
      destruct Hge as [[-> ->]|[Hp1 Hge]]; [simpl in E; lia|].
      split; lia.
Qed.

Lemma power_of_two_iff n :
  (0 < n)%Z -> power_of_two n = true <-> exists q, (0 <= q)%Z /\ n = (2 ^ q)%Z.
Proof.
  intros Hn. unfold power_of_two. rewrite Z.eqb_eq. split.
  - intros E. exists (Z.log2 n). split; [apply Z.log2_nonneg | exact E].
  - intros [q [Hq ->]]. rewrite Z.log2_pow2 by exact Hq. reflexivity.
Qed.

(** With the invariant, the counter meets [iterations_print] exactly when
    it is a power of two. *)
Lemma meets_iff_power k p :
  (0 <= p)%Z -> (Z.of_nat k < 2 ^ p)%Z ->
  ((k = 0%nat /\ p = 0%Z) \/ (1 <= p /\ 2 ^ (p - 1) <= Z.of_nat k)%Z) ->
  (Z.of_nat k + 1 = 2 ^ p)%Z <-> power_of_two (Z.of_nat k + 1) = true.
Proof.
  intros Hp Hlt Hge. rewrite power_of_two_iff by lia. split.
  - intros E. exists p. split; assumption.
  - intros [q [Hq E]].
    destruct Hge as [[-> ->]|[Hp1 Hge]]; [reflexivity|].
    assert (L1 : (p - 1 < q)%Z).
    { apply (Z.pow_lt_mono_r_iff 2); lia. }
    assert (L2 : (q <= p)%Z).
    { apply (Z.pow_le_mono_r_iff 2); lia. }
    assert (q = p) by lia. subst q. exact E.
Qed.

Lemma progress_lines_succ M N k st :
  progress_lines M N (S k) st
  = progress_lines M N k st ++ sweep_print M N (Nat.iter k (sweep M N) st).
Proof.
  unfold progress_lines. rewrite seq_S, flat_map_app. simpl. rewrite app_nil_r.
  reflexivity.
Qed.

Lemma sweep_print_schedule M N st k :
  iterations st = 0%Z -> iterations_print st = 1%Z ->
  let sk := Nat.iter k (sweep M N) st in
  sweep_print M N sk
  = if power_of_two (Z.of_nat k + 1)
    then [((Z.of_nat k + 1)%Z, diff (sweep M N sk))]
    else [].
Proof.
  intros H0 H1 sk.
  destruct (counters_invariant M N st k H0 H1) as [Hi [p [Hp [Hq [Hlt Hge]]]]].
  fold sk in Hi, Hq. rewrite sweep_print_eq, Hi, Hq.
  pose proof (meets_iff_power k p Hp Hlt Hge) as E.
  destruct (Z.eqb_spec (Z.of_nat k + 1) (2 ^ p)) as [A|A];
    destruct (power_of_two (Z.of_nat k + 1)); try reflexivity.
  - apply E in A. discriminate A.
  - exfalso. apply A, E. reflexivity.
Qed.

(** X1. From the entry of [getHeat] and for fewer than 2^30 sweeps, that
    is as long as no [int] counter of the source has overflowed: after [k]
    sweeps the counter [iterations] is [k] and [iterations_print] is the
    least power of two above [k], both within the range of [int]; the
    sweep that follows prints a progress line exactly when its number
    [k + 1] is a power of two, and the line shows that number and the
    [diff] of that sweep.  So the lines printed in the first [k] sweeps
    are those of the sweeps 1, 2, 4, 8, ... up to [k]. *)
Theorem progress_schedule (M N : nat) (st : state) (k : nat) :
  (Z.of_nat k < 2 ^ 30)%Z ->
  let st0 := set_iterations_print (set_iterations st 0) 1 in
  let sk := Nat.iter k (sweep M N) st0 in
  (0 <= iterations sk < 2 ^ 30
   /\ 1 <= iterations_print sk <= 2 ^ 30
   /\ iterations sk + 1 <= 2 ^ 31 - 1)%Z
  /\ iterations sk = Z.of_nat k
  /\ iterations_print sk = (2 ^ Z.log2_up (Z.of_nat k + 1))%Z
  /\ sweep_print M N sk
     = (if power_of_two (Z.of_nat k + 1)
        then [((Z.of_nat k + 1)%Z, diff (sweep M N sk))]
        else [])
  /\ map fst (progress_lines M N k st0)
     = filter power_of_two (map Z.of_nat (seq 1 k)).
Proof.
  intros Hk st0 sk.
  assert (H0 : iterations st0 = 0%Z) by reflexivity.
  assert (H1 : iterations_print st0 = 1%Z) by reflexivity.
  destruct (counters_invariant M N st0 k H0 H1) as [Hi [p [Hp [Hq [Hlt Hge]]]]].
  fold sk in Hi, Hq.
  split.
  { rewrite Hi, Hq. split; [lia|]. split; [|lia].
    destruct Hge as [[-> ->]|[Hp1 Hge]]; [simpl; lia|].
    split; [pose proof (Z.pow_pos_nonneg 2 p); lia|].
    assert (L : (p - 1 < 30)%Z).
    { apply (Z.pow_lt_mono_r_iff 2); lia. }
    apply Z.pow_le_mono_r; lia. }
  split; [exact Hi|]. split.
  { rewrite Hq. f_equal. symmetry.
    destruct Hge as [[-> ->]|[Hp1 Hge]]; [reflexivity|].
    apply Z.log2_up_unique; [lia|]. split; lia. }
  split; [apply (sweep_print_schedule M N st0 k H0 H1)|].
  clear. subst st0. set (st0 := set_iterations_print (set_iterations st 0) 1).
  induction k as [|k IH]; [reflexivity|].
  rewrite progress_lines_succ, map_app, IH, seq_S, map_app, filter_app.
  f_equal.
  rewrite (sweep_print_schedule M N st0 k eq_refl eq_refl).
  cbn [map filter Nat.add]. rewrite Nat2Z.inj_succ. unfold Z.succ.
  destruct (power_of_two (Z.of_nat k + 1)); reflexivity.
Qed.

Lemma progress_schedule_witness :
  map fst (progress_lines 3 3 5 (set_iterations_print (set_iterations globals 0) 1))
  = filter power_of_two (map Z.of_nat (seq 1 5)).
Proof.
  assert (H : (Z.of_nat 5 < 2 ^ 30)%Z) by reflexivity.
  exact (proj2 (proj2 (proj2 (proj2 (progress_schedule 3 3 globals 5 H))))).
Defined.

(** * The run stops at the first sweep below the tolerance *)

Lemma sweeps_iterations M N st k :
  iterations (Nat.iter k (sweep M N) st) = (iterations st + Z.of_nat k)%Z.
Proof.
  induction k as [|k IH]; [simpl; lia|].
  simpl Nat.iter. rewrite sweep_iterations, IH. lia.
Qed.

Lemma getHeat_loop_spec M N : forall fuel st st',
  getHeat_loop M N fuel st = Some st'
  <-> exists k,
        (k < fuel)%nat
        /\ st' = Nat.iter k (sweep M N) st
        /\ diff st' < epsilon st
        /\ forall j, (j < k)%nat -> epsilon st <= diff (Nat.iter j (sweep M N) st).
Proof.
  induction fuel as [|fuel IH]; intros st st'.
  - split; [discriminate|]. intros [k [L _]]. lia.
  - split.
    + intros H. destruct (Qlt_le_dec (diff st) (epsilon st)) as [C|C].
      * rewrite getHeat_loop_stop in H by exact C. inversion H; subst.
        exists 0%nat. split; [lia|]. split; [reflexivity|]. split; [exact C|].
        intros j Hj. lia.
      * rewrite getHeat_loop_continue in H by exact C.
        apply IH in H. destruct H as [k [L [E [D A]]]].
        rewrite sweep_epsilon in D. exists (S k). split; [lia|].
        split; [rewrite Nat.iter_succ_r; exact E|]. split; [exact D|].
        intros [|j] Hj; [exact C|].
        rewrite Nat.iter_succ_r. rewrite <- (sweep_epsilon M N st).
        apply A. lia.
    + intros [[|k] [L [E [D A]]]].
      * subst st'. apply getHeat_loop_stop, D.
      * rewrite getHeat_loop_continue by (apply (A 0%nat); lia).
        apply IH. exists k. split; [lia|].
        split; [rewrite <- Nat.iter_succ_r; exact E|].
        split; [rewrite sweep_epsilon; exact D|].
        intros j Hj. rewrite sweep_epsilon, <- Nat.iter_succ_r.
        apply A. lia.
Qed.

(** X2. [main] returns, with status 0, exactly the state after the first
    sweep that ends with [diff < epsilon]: the state after [k >= 1] sweeps
    where every earlier sweep ended with [epsilon <= diff]; its counter
    [iterations] is [k] and its [epsilon] is the tolerance that was read.
    Which state is returned does not depend on the fuel, as long as the
    fuel allows [k] sweeps. *)
Theorem main_returns_first_below (M N : nat) (e : Q) (fuel : nat) (name : string)
    (code : Z) (st' : state) :
  main M N fuel (Some e) (Some name) = Some (code, st')
  <-> code = 0%Z
      /\ exists k,
           (1 <= k < fuel)%nat
           /\ st' = Nat.iter k (sweep M N) (loop_entry M N e)
           /\ iterations st' = Z.of_nat k
           /\ epsilon st' = e
           /\ diff st' < e
           /\ forall j, (j < k)%nat ->
                e <= diff (Nat.iter j (sweep M N) (loop_entry M N e)).
Proof.
  rewrite main_run. split.
  - intros H.
    destruct (getHeat_loop M N fuel (loop_entry M N e)) as [s|] eqn:G; [|discriminate].
    inversion H; subst code st'. clear H. split; [reflexivity|].
    apply getHeat_loop_spec in G. destruct G as [k [L [E [D A]]]].
    rewrite loop_entry_epsilon in D, A.
    exists k. split.
    { split; [|exact L]. destruct k as [|k]; [|lia].
      exfalso. subst s. change (diff (loop_entry M N e) < e) in D.
      rewrite loop_entry_diff in D.
      apply (Qlt_irrefl e), D. }
    split; [exact E|]. split.
    { rewrite E, sweeps_iterations, loop_entry_iterations. lia. }
    split; [rewrite E, sweeps_epsilon; apply loop_entry_epsilon|].
    split; [exact D | exact A].
  - intros [-> [k [[K1 L] [E [_ [_ [D A]]]]]]].
    assert (G : getHeat_loop M N fuel (loop_entry M N e) = Some st').
    { apply getHeat_loop_spec. exists k. rewrite loop_entry_epsilon.
      split; [exact L|]. split; [exact E|]. split; [exact D | exact A]. }
    rewrite G. reflexivity.
Qed.

Lemma main_returns_first_below_witness :
  exists k,
    (1 <= k < 3)%nat
    /\ iterations (Nat.iter k (sweep 3 3) (loop_entry 3 3 1)) = Z.of_nat k.
Proof.
  assert (H : main 3 3 3 (Some 1) (Some "out"%string)
              = Some (0%Z, Nat.iter 2 (sweep 3 3) (loop_entry 3 3 1)))
    by (vm_compute; reflexivity).
  destruct (proj1 (main_returns_first_below 3 3 1 3 "out"%string 0%Z _) H)
    as [_ [k [K [E [I _]]]]].
  exists k. split; [exact K|]. rewrite <- E. exact I.
Defined.

(** * How [diff] evolves *)

Lemma change_within_diff M N st k i j :
  within (diff (Nat.iter (S k) (sweep M N) st)) (change M N st k i j).
Proof.
  unfold within, change. rewrite grid_after_step. unfold grid_after.
  simpl Nat.iter. rewrite sweep_diff.
  apply Qabs_Qle_condition, change_bound.
Qed.

Lemma sweeps_diff_nonneg M N st k : 0 <= diff (Nat.iter (S k) (sweep M N) st).
Proof. simpl Nat.iter. apply sweep_diff_nonneg. Qed.

Lemma diff_step_le M N st k :
  diff (Nat.iter (S (S k)) (sweep M N) st) <= diff (Nat.iter (S k) (sweep M N) st).
Proof.
  set (D := diff (Nat.iter (S k) (sweep M N) st)).
  assert (HD : 0 <= D) by apply sweeps_diff_nonneg.
  apply diff_le_bound; [exact HD|]. intros i j.
  pose proof (rows_contract M N st D k HD (change_within_diff M N st k) 1 i j) as B.
  rewrite Nat.add_1_r in B.
  pose proof (scale_range D _ HD (row_bound_range 1 i)) as [_ S1].
  unfold within in *. lra.
Qed.

Lemma diff_antitone M N st k n :
  (k <= n)%nat ->
  diff (Nat.iter (S n) (sweep M N) st) <= diff (Nat.iter (S k) (sweep M N) st).
Proof.
  induction 1 as [|n H IH]; [apply Qle_refl|].
  eapply Qle_trans; [apply diff_step_le | exact IH].
Qed.

(** X3. [diff] never grows: every sweep after the first ends with a
    [diff] that is at most the [diff] of the sweep before it, and [diff] is
    never negative after a sweep. *)
Theorem diff_never_grows (M N : nat) (st : state) (k n : nat) :
  (1 <= k <= n)%nat ->
  0 <= diff (Nat.iter n (sweep M N) st)
  /\ diff (Nat.iter n (sweep M N) st) <= diff (Nat.iter k (sweep M N) st).
Proof.
  intros [Hk Hn].
  destruct k as [|k]; [lia|]. destruct n as [|n]; [lia|].
  split; [apply sweeps_diff_nonneg | apply diff_antitone; lia].
Qed.

Lemma diff_never_grows_witness :
  diff (Nat.iter 3 (sweep 4 4) (loop_entry 4 4 1))
  <= diff (Nat.iter 2 (sweep 4 4) (loop_entry 4 4 1)).
Proof.
  assert (H : (1 <= 2 <= 3)%nat) by lia.
  exact (proj2 (diff_never_grows 4 4 (loop_entry 4 4 1) 2 3 H)).
Defined.

Lemma shrink_closed i : shrink i == 1 - (1 # 4) ^ Z.of_nat i.
Proof.
  induction i as [|i IH]; [reflexivity|].
  rewrite Nat2Z.inj_succ. unfold Z.succ.
  rewrite Qpower_plus' by lia. simpl shrink. rewrite IH.
  change ((1 # 4) ^ 1) with (1 # 4). ring.
Qed.

Lemma geometric_closed r n d : geometric r n d == d * r ^ Z.of_nat n.
Proof.
  induction n as [|n IH]; [simpl; ring|].
  rewrite Nat2Z.inj_succ. unfold Z.succ.
  rewrite Qpower_plus' by lia. simpl geometric. rewrite IH.
  change (r ^ 1) with r. ring.
Qed.

(** X4. [diff] shrinks at least geometrically: [n * M] sweeps after the
    first sweep it is at most the [diff] of the first sweep times
    [(1 - (1/4)^M)^n]. *)
Theorem diff_geometric_bound (M N : nat) (st : state) (n : nat) :
  diff (Nat.iter (S (n * M)) (sweep M N) st)
  <= diff (sweep M N st) * (1 - (1 # 4) ^ Z.of_nat M) ^ Z.of_nat n.
Proof.
  set (D := diff (sweep M N st)).
  assert (HD : 0 <= D) by apply sweep_diff_nonneg.
  pose proof (shrink_range M) as [S0 S1].
  rewrite <- shrink_closed, <- geometric_closed.
  apply diff_le_bound; [apply geometric_nonneg; assumption|].
  apply geometric_contract; [exact HD|].
  intros i j. apply (change_within_diff M N st 0 i j).
Qed.

(** X5. [diff] tends to zero: for every positive bound there is a sweep
    from which on every sweep ends with [diff] below the bound. *)
Theorem diff_tends_to_zero (M N : nat) (st : state) (eps : Q) :
  0 < eps ->
  exists K, forall k, (K <= k)%nat -> diff (Nat.iter (S k) (sweep M N) st) < eps.
Proof.
  intros He. destruct (diff_falls_below M N st eps He) as [K HK].
  exists K. intros k Hk.
  eapply Qle_lt_trans; [apply diff_antitone, Hk | exact HK].
Qed.

Lemma diff_tends_to_zero_witness :
  exists K, forall k, (K <= k)%nat ->
    diff (Nat.iter (S k) (sweep M_ref N_ref) (loop_entry M_ref N_ref 1)) < 1 # 100.
Proof.
  assert (H : 0 < 1 # 100) by reflexivity.
  exact (diff_tends_to_zero M_ref N_ref (loop_entry M_ref N_ref 1) (1 # 100) H).
Defined.

(** X6. A sweep that ends with [diff == 0] has changed nothing, and
    nothing changes afterwards: after any number of further sweeps every
    cell has the value it had before that sweep, and every one of these
    sweeps ends with [diff == 0]. *)
Theorem fixed_point_stays (M N : nat) (st : state) (k i j : nat) :
  diff (sweep M N st) == 0 ->
  w (Nat.iter k (sweep M N) st) i j == w st i j
  /\ diff (Nat.iter (S k) (sweep M N) st) == 0.
Proof.
  intros H0.
  assert (Z : forall n, diff (Nat.iter (S n) (sweep M N) st) == 0).
  { intros n. apply Qle_antisym; [|apply sweeps_diff_nonneg].
    rewrite <- H0. apply (diff_antitone M N st 0 n). lia. }
  split; [|apply Z].
  induction k as [|k IH]; [reflexivity|].
  pose proof (change_within_diff M N st k i j) as B.
  unfold within, change, grid_after in B. rewrite (Z k) in B.
  rewrite <- IH. lra.
Qed.

Lemma fixed_point_stays_witness :
  let st := sweep 3 3 (loop_entry 3 3 1) in
  w (Nat.iter 5 (sweep 3 3) st) 1%nat 1%nat == w st 1%nat 1%nat.
Proof.
  intros st.
  assert (H : diff (sweep 3 3 st) == 0) by (vm_compute; reflexivity).
  exact (proj1 (fixed_point_stays 3 3 st 5 1 1 H)).
Defined.

(** * The order of the cells in a sweep *)

Lemma running_max_le_perm (f : cell -> Q) l l' d :
  Permutation l l' -> running_max f l d <= running_max f l' d.
Proof.
  intros P. apply run_le_bound; [apply run_ge_start|].
  intros c I. apply run_ge_each. apply (Permutation_in c P I).
Qed.

Lemma running_max_perm (f : cell -> Q) l l' d :
  Permutation l l' -> running_max f l d == running_max f l' d.
Proof.
  intros P. apply Qle_antisym; apply running_max_le_perm;
    [exact P | apply Permutation_sym, P].
Qed.

Lemma write_all_perm val l l' g a b :
  Permutation l l' -> write_all val l g a b = write_all val l' g a b.
Proof.
  intros P. destruct (in_dec cell_eq_dec (a, b) l) as [I|I].
  - rewrite !write_all_in; [reflexivity | apply (Permutation_in _ P I) | exact I].
  - rewrite !write_all_out; [reflexivity | | exact I].
    intros I'. apply I. apply (Permutation_in _ (Permutation_sym P) I').
Qed.

(** X7. The relaxation does not depend on the order in which the interior
    cells are visited: running the body of the inner loop over any
    rearrangement of the interior cells gives the same [w] in every cell,
    the same [u] and an equal [diff] as the two nested loops of [getHeat]. *)
Theorem relax_order_independent (M N : nat) (st : state) (l : list cell) :
  Permutation l (interior_cells M N) ->
  let st1 := fold_left (fun s c => relax_cell (fst c) (snd c) s) l st in
  (forall i j, w st1 i j = w (relax M N st) i j)
  /\ u st1 = u (relax M N st)
  /\ diff st1 == diff (relax M N st).
Proof.
  intros P st1. subst st1. rewrite relax_fold, relax_eq.
  cbn [w u diff set_w set_diff].
  split; [intros i j; apply write_all_perm, P|].
  split; [reflexivity|].
  apply (running_max_perm
           (fun c => Qabs (neighbour_avg (u st) c - at_cell (u st) c)) _ _ _ P).
Qed.

Lemma relax_order_independent_witness :
  let st := set_diff (save_old 4 5 (loop_entry 4 5 1)) 0 in
  diff (fold_left (fun s c => relax_cell (fst c) (snd c) s)
          (rev (interior_cells 4 5)) st)
  == diff (relax 4 5 st).
Proof.
  intros st.
  assert (P : Permutation (rev (interior_cells 4 5)) (interior_cells 4 5))
    by apply Permutation_sym, Permutation_rev.
  exact (proj2 (proj2 (relax_order_independent 4 5 st _ P))).
Defined.

(** * What initialisation writes *)

Lemma stamped_exact M N st a b :
  (2 <= M)%nat -> on_boundary M N a b ->
  w (setBoundaryValue M N st) a b = if (a =? 0)%nat then 0 else 100.
Proof.
  intros HM [Ha [Hb H]].
  destruct (Nat.eqb_spec a 0) as [->|A0]; [apply stamped_north, Hb|].
  destruct (Nat.eq_dec a (M - 1)) as [->|A1]; [apply stamped_south; assumption|].
  destruct H as [H|[H|[H|H]]]; try contradiction; subst b.
  - apply stamped_west. lia.
  - apply stamped_east. lia.
Qed.

Lemma mean_determined M N st st' :
  (2 <= M)%nat -> (2 <= N)%nat ->
  mean (initialize M N st) = mean (initialize M N st').
Proof.
  intros HM HN. rewrite !initialize_mean. f_equal.
  apply fold_left_ext_in. intros m [a b] I.
  apply in_boundary_cells in I; [|exact HM|exact HN].
  unfold at_cell. cbn [fst snd]. rewrite !stamped_exact by assumption.
  reflexivity.
Qed.

(** X8. Initialisation writes every cell of the plate and reads none that
    it has not written: the grid and [mean] after [setBoundaryValue] and
    [setAverageBoundary] are the same whatever the arrays held before.  In
    particular initialising twice gives what initialising once gives. *)
Theorem initialize_determines_plate (M N : nat) (st st' : state) (i j : nat) :
  (2 <= M)%nat -> (2 <= N)%nat -> (i < M)%nat -> (j < N)%nat ->
  w (initialize M N st) i j = w (initialize M N st') i j
  /\ mean (initialize M N st) = mean (initialize M N st')
  /\ w (initialize M N (initialize M N st)) i j = w (initialize M N st) i j.
Proof.
  intros HM HN Hi Hj.
  assert (G : forall s s', w (initialize M N s) i j = w (initialize M N s') i j).
  { intros s s'. destruct (interior_dec M N i j) as [I|I].
    - rewrite !initialize_interior by exact I. apply mean_determined; assumption.
    - rewrite !initialize_other by exact I.
      rewrite !stamped_exact; try assumption; try reflexivity;
        apply not_interior_on_boundary; assumption. }
  split; [apply G|]. split; [apply mean_determined; assumption | apply G].
Qed.

Lemma initialize_determines_plate_witness :
  w (initialize 3 4 (sweep 3 4 (loop_entry 3 4 1))) 1%nat 2%nat
  = w (initialize 3 4 globals) 1%nat 2%nat.
Proof.
  assert (HM : (2 <= 3)%nat) by lia.
  assert (HN : (2 <= 4)%nat) by lia.
  assert (Hi : (1 < 3)%nat) by lia.
  assert (Hj : (2 < 4)%nat) by lia.
  exact (proj1 (initialize_determines_plate 3 4 _ globals 1 2 HM HN Hi Hj)).
Defined.

Lemma mean_formula M N st :
  (2 <= M)%nat -> (2 <= N)%nat ->
  mean (initialize M N st)
  == inject_Z (200 * (Z.of_nat M - 2) + 100 * Z.of_nat N)
     / inject_Z (2 * Z.of_nat M + 2 * Z.of_nat N - 4).
Proof.
  intros HM HN.
  rewrite initialize_mean, sum_fold_left.
  apply Qdiv_comp; [|reflexivity].
  unfold boundary_cells. rewrite !sum_app.
  rewrite (sum_const _ 100 (col_cells 1 (M - 1) 0)).
  2:{ intros [a b] H. apply in_col_cells in H. destruct H as [H ->].
      unfold at_cell; cbn [fst snd]. apply stamped_west. lia. }
  rewrite (sum_const _ 100 (col_cells 1 (M - 1) (N - 1))).
  2:{ intros [a b] H. apply in_col_cells in H. destruct H as [H ->].
      unfold at_cell; cbn [fst snd]. apply stamped_east. lia. }
  rewrite (sum_const _ 100 (row_cells (M - 1) 0 N)).
  2:{ intros [a b] H. apply in_row_cells in H. destruct H as [-> H].
      unfold at_cell; cbn [fst snd]. apply stamped_south; lia. }
  rewrite (sum_const _ 0 (row_cells 0 0 N)).
  2:{ intros [a b] H. apply in_row_cells in H. destruct H as [-> H].
      unfold at_cell; cbn [fst snd]. apply stamped_north; lia. }
  unfold col_cells, row_cells. rewrite !length_map, !length_seq.
  replace (Z.of_nat (M - 1 - 1)) with (Z.of_nat M - 2)%Z by lia.
  replace (N - 0)%nat with N by lia.
  rewrite inject_Z_plus, !inject_Z_mult. ring.
Qed.

(** X9. With three edges at 100 and one at 0, the value that
    [setAverageBoundary] puts into [mean] and into every interior cell is
    [(200 (M - 2) + 100 N) / (2 M + 2 N - 4)]. *)
Theorem mean_value (M N : nat) (st : state) (i j : nat) :
  (2 <= M)%nat -> (2 <= N)%nat -> interior M N i j ->
  w (initialize M N st) i j
  == inject_Z (200 * (Z.of_nat M - 2) + 100 * Z.of_nat N)
     / inject_Z (2 * Z.of_nat M + 2 * Z.of_nat N - 4).
Proof.
  intros HM HN I. rewrite initialize_interior by exact I.
  apply mean_formula; assumption.
Qed.

Lemma mean_value_witness :
  w (initialize M_ref N_ref globals) 500%nat 500%nat
  == inject_Z (200 * (Z.of_nat M_ref - 2) + 100 * Z.of_nat N_ref)
     / inject_Z (2 * Z.of_nat M_ref + 2 * Z.of_nat N_ref - 4).
Proof.
  assert (HM : (2 <= M_ref)%nat) by (apply Nat.leb_le; reflexivity).
  assert (HN : (2 <= N_ref)%nat) by (apply Nat.leb_le; reflexivity).
  assert (I : interior M_ref N_ref 500 500)
    by (split; split; apply Nat.leb_le; reflexivity).
  exact (mean_value M_ref N_ref globals 500 500 HM HN I).
Defined.

(** * Left-right symmetry *)

Lemma initialize_mirror M N st :
  (2 <= M)%nat -> (2 <= N)%nat -> mirror_symmetric M N (w (initialize M N st)).
Proof.
  intros HM HN i j Hi Hj.
  destruct (interior_dec M N i j) as [I|I].
  - rewrite (initialize_interior M N st i j I).
    rewrite initialize_interior by (unfold interior in *; lia). reflexivity.
  - rewrite (initialize_other M N st i j I).
    rewrite initialize_other by (unfold interior in *; lia).
    rewrite !stamped_exact; try assumption; try reflexivity.
    + unfold on_boundary, interior in *. lia.
    + apply not_interior_on_boundary; assumption.
Qed.

Lemma jacobi_mirror M N g :
  mirror_symmetric M N g -> mirror_symmetric M N (jacobi M N g).
Proof.
  intros S i j Hi Hj. destruct (interior_dec M N i j) as [I|I].
  - rewrite (jacobi_interior M N g i j I).
    rewrite jacobi_interior by (unfold interior in *; lia).
    destruct I as [Ii Ij]. unfold neighbour_avg. cbn [fst snd].
    replace (N - 1 - j - 1)%nat with (N - 1 - (j + 1))%nat by lia.
    replace (N - 1 - j + 1)%nat with (N - 1 - (j - 1))%nat by lia.
    rewrite <- (S (i - 1)%nat j), <- (S (i + 1)%nat j) by lia.
    rewrite <- (S i (j + 1)%nat), <- (S i (j - 1)%nat) by lia.
    unfold Qdiv. ring.
  - rewrite (jacobi_other M N g i j I).
    rewrite jacobi_other by (unfold interior in *; lia).
    apply S; assumption.
Qed.

(** X10. The west and the east edge hold the same value, and in exact
    arithmetic the grid stays symmetric about the vertical centre line:
    after initialisation and after any number of sweeps the cells
    [(i, j)] and [(i, N - 1 - j)] hold equal values.  (With binary64
    rounding two such cells can differ in the last place, see
    [mirror_cells_differ_in_binary64].) *)
Theorem grid_mirror_symmetric (M N : nat) (st : state) (k i j : nat) :
  (2 <= M)%nat -> (2 <= N)%nat -> (i < M)%nat -> (j < N)%nat ->
  let g := w (Nat.iter k (sweep M N) (initialize M N st)) in
  g i j == g i (N - 1 - j)%nat.
Proof.
  intros HM HN Hi Hj g. subst g. revert i j Hi Hj.
  change (mirror_symmetric M N (w (Nat.iter k (sweep M N) (initialize M N st)))).
  induction k as [|k IH]; [apply initialize_mirror; assumption|].
  intros i j Hi Hj. simpl Nat.iter. rewrite !sweep_w.
  apply jacobi_mirror; assumption.
Qed.

Lemma grid_mirror_symmetric_witness :
  let g := w (Nat.iter 3 (sweep 5 6) (initialize 5 6 globals)) in
  g 2%nat 1%nat == g 2%nat 4%nat.
Proof.
  assert (HM : (2 <= 5)%nat) by lia.
  assert (HN : (2 <= 6)%nat) by lia.
  assert (Hi : (2 < 5)%nat) by lia.
  assert (Hj : (1 < 6)%nat) by lia.
  exact (grid_mirror_symmetric 5 6 globals 3 2 1 HM HN Hi Hj).
Defined.

(** * Array bounds *)

(** X11. No function writes outside the arrays: a cell that is not a cell
    of the [M] by [N] plate holds after initialisation and after a sweep
    what it held before, in [w] and in [u]. *)
Theorem writes_stay_on_plate (M N : nat) (st : state) (a b : nat) :
  (1 <= M)%nat -> (1 <= N)%nat -> ~ (a < M /\ b < N)%nat ->
  w (initialize M N st) a b = w st a b
  /\ u (initialize M N st) a b = u st a b
  /\ w (sweep M N st) a b = w st a b
  /\ u (sweep M N st) a b = u st a b.
Proof.
  intros HM HN H.
  assert (I : ~ interior M N a b) by (unfold interior; lia).
  split.
  { rewrite initialize_other by exact I. rewrite setBoundaryValue_eq.
    cbn [w set_w].
    rewrite !write_all_out; [reflexivity| | | |];
      rewrite ?in_row_cells, ?in_col_cells; lia. }
  split.
  { destruct (initialize_frame M N st) as [-> _]. reflexivity. }
  split.
  { rewrite sweep_w. apply jacobi_other, I. }
  unfold sweep. rewrite count_iteration_u, relax_eq, save_old_eq.
  cbn [u set_diff set_w set_u].
  apply write_all_out. rewrite in_all_cells. exact H.
Qed.

Lemma writes_stay_on_plate_witness :
  w (sweep 3 3 (initialize 3 3 globals)) 3%nat 0%nat
  = w (initialize 3 3 globals) 3%nat 0%nat.
Proof.
  assert (H1 : (1 <= 3)%nat) by lia.
  assert (H : ~ (3 < 3 /\ 0 < 3)%nat) by lia.
  exact (proj1 (proj2 (proj2
    (writes_stay_on_plate 3 3 (initialize 3 3 globals) 3 0 H1 H1 H)))).
Defined.

(** X12. A sweep reads the cells of [w] on the plate and nothing else:
    two states whose grids [w] agree on the plate have, after a sweep, the
    same [w] and the same [u] on the plate and the same [diff], whatever
    their [u], their [diff] and their cells outside the plate held. *)
Theorem sweep_reads_plate_only (M N : nat) (st st' : state) (a b : nat) :
  (forall i j, (i < M)%nat -> (j < N)%nat -> w st i j = w st' i j) ->
  (a < M)%nat -> (b < N)%nat ->
  w (sweep M N st) a b = w (sweep M N st') a b
  /\ u (sweep M N st) a b = u (sweep M N st') a b
  /\ diff (sweep M N st) = diff (sweep M N st').
Proof.
  intros E Ha Hb.
  assert (A : forall c, In c (interior_cells M N) ->
            neighbour_avg (w st) c = neighbour_avg (w st') c
            /\ at_cell (w st) c = at_cell (w st') c).
  { intros [i j] I. apply in_interior_cells in I. destruct I as [Ii Ij].
    unfold neighbour_avg, at_cell. cbn [fst snd].
    rewrite !(E (i - 1)%nat j), !(E (i + 1)%nat j) by lia.
    rewrite !(E i (j - 1)%nat), !(E i (j + 1)%nat), !(E i j) by lia.
    split; reflexivity. }
  split.
  { rewrite !sweep_w. destruct (interior_dec M N a b) as [I|I].
    - rewrite !jacobi_interior by exact I.
      apply A, in_interior_cells, I.
    - rewrite !jacobi_other by exact I. apply E; assumption. }
  split.
  { rewrite !sweep_u by assumption. apply E; assumption. }
  rewrite !sweep_diff. unfold max_change, running_max.
  apply fold_left_ext_in. intros d c I.
  destruct (A c I) as [-> ->]. reflexivity.
Qed.

Lemma sweep_reads_plate_only_witness :
  diff (sweep 3 3 (loop_entry 3 3 1)) = diff (sweep 3 3 (loop_entry 3 3 2)).
Proof.
  assert (E : forall i j, (i < 3)%nat -> (j < 3)%nat ->
            w (loop_entry 3 3 1) i j = w (loop_entry 3 3 2) i j).
  { intros i j _ _. rewrite (loop_entry_w_eq 3 3 1 2). reflexivity. }
  assert (H : (0 < 3)%nat) by lia.
  exact (proj2 (proj2
    (sweep_reads_plate_only 3 3 (loop_entry 3 3 1) (loop_entry 3 3 2) 0 0 E H H))).
Defined.

(** * The output file *)













(** * The first progress line *)

Lemma mean_lower_bound M N st :
  (2 <= M)%nat -> (2 <= N)%nat -> (N + 4 <= 2 * M)%nat ->
  200 # 3 <= mean (initialize M N st).
Proof.
  intros HM HN H. rewrite mean_formula by assumption.
  apply Qle_shift_div_l.
  - change 0 with (inject_Z 0). rewrite <- Zlt_Qlt. lia.
  - unfold Qle, Qmult, inject_Z. cbn [Qnum Qden].
    rewrite !Pos.mul_1_r, !Z.mul_1_r. lia.
Qed.

(** X14. On a plate with at least four rows and five columns and
    [N + 4 <= 2 M], as on the plate of the source, the change that the
    first progress line reports is a quarter of [mean]: the first sweep
    changes most the cells next to the cold edge. *)
Theorem first_line_reports_quarter_mean (M N : nat) (e : Q) :
  (4 <= M)%nat -> (5 <= N)%nat -> (N + 4 <= 2 * M)%nat ->
  sweep_print M N (loop_entry M N e)
  = [(1%Z, diff (sweep M N (loop_entry M N e)))]
  /\ diff (sweep M N (loop_entry M N e))
     == inject_Z (200 * (Z.of_nat M - 2) + 100 * Z.of_nat N)
        / inject_Z (2 * Z.of_nat M + 2 * Z.of_nat N - 4) * (1 # 4).
Proof.
  intros HM HN H. split; [rewrite sweep_print_eq; reflexivity|].
  rewrite first_sweep_diff_entry; [| exact HM | exact HN |].
  - rewrite mean_formula by lia. reflexivity.
  - split; [apply mean_lower_bound; lia | apply initialize_mean_range; lia].
Qed.

Lemma first_line_reports_quarter_mean_witness :
  diff (sweep M_ref N_ref (loop_entry M_ref N_ref 1))
  == inject_Z (200 * (Z.of_nat M_ref - 2) + 100 * Z.of_nat N_ref)
     / inject_Z (2 * Z.of_nat M_ref + 2 * Z.of_nat N_ref - 4) * (1 # 4).
Proof.
  assert (HM : (4 <= M_ref)%nat) by (apply Nat.leb_le; reflexivity).
  assert (HN : (5 <= N_ref)%nat) by (apply Nat.leb_le; reflexivity).
  assert (H : (N_ref + 4 <= 2 * M_ref)%nat) by (apply Nat.leb_le; reflexivity).
  exact (proj2 (first_line_reports_quarter_mean M_ref N_ref 1 HM HN H)).
Defined.

(** * Runs with binary64 arithmetic *)

Section Binary64Runs.

Import PrimFloat.

(** C5, as stated, fails on the program.  On the 6 by 7 plate with the
    tolerance 0x1.2p-46 (about 1.6e-14) the binary64 run ends after 182
    sweeps, and in the grid it returns the cell (2, 3) is farther than
    [epsilon] from the average of its four neighbours: about 2.1e-14 when
    the average is computed in binary64, and 5 * 2^-48 (about 1.8e-14)
    when it is computed without rounding. *)
Lemma exit_residual_fails_in_binary64 :
  match B64.main 6 7 183 (Some 0x1.2p-46%float) (Some "out"%string) with
  | Some (code, st') =>
      code = 0%Z
      /\ B64.iterations st' = 182%Z
      /\ (B64.diff st' <? 0x1.2p-46)%float = true
      /\ (0x1.2p-46 <? B64.residual (B64.w st') 2 3)%float = true
      /\ B64.to_Q 0x1.2p-46 < B64.exact_residual (B64.w st') 2 3
  | None => False
  end.
Proof. vm_compute. repeat split. Qed.

(** With binary64 rounding the grid does not stay symmetric: on the 5 by
    6 plate after three sweeps the mirrored cells (2, 2) and (2, 3) hold
    67.187500000000014 and 67.1875, because line 239 adds the west and
    the east neighbour in opposite order at mirrored cells. *)
Lemma mirror_cells_differ_in_binary64 :
  let g := B64.w (Nat.iter 3 (B64.sweep 5 6) (B64.initialize 5 6 B64.globals)) in
  (g 2%nat 2%nat =? g 2%nat 3%nat)%float = false
  /\ (g 2%nat 3%nat =? 67.1875)%float = true.
Proof. vm_compute. split; reflexivity. Qed.

(** With binary64 rounding and a tolerance above zero the run ends when
    the grid has become a fixed point of the sweep: on the 5 by 5 plate
    with the tolerance 2^-997 (about 7.5e-301) it ends after 102 sweeps
    with [diff] zero. *)
Lemma binary64_run_reaches_fixed_point :
  match B64.main 5 5 103 (Some 0x1p-997%float) (Some "out"%string) with
  | Some (code, st') =>
      code = 0%Z /\ B64.iterations st' = 102%Z /\ (B64.diff st' =? 0)%float = true
  | None => False
  end.
Proof. vm_compute. repeat split. Qed.

End Binary64Runs.
